(** * rez suites: tool-namespace resolution and alias invocation

    A shallow embedding of [src/rez/suite.py] (classes [Suite] and [Alias],
    and the forwarding entry point [_FWD__invoke_suite_tool_alias]) together
    with the properties of its specification.

    Python objects are mutated in place; here every method is a computation
    in a state-and-exception monad over the suite object and the disk.  As in
    Python, the state reached when an exception is raised is kept. *)

From Stdlib Require Import Ascii.
From stdpp Require Import gmap strings list fin_maps sorting.

(** ** Opaque collaborators *)

(** A variant is an opaque provenance reference; only its identity matters. *)
Abbreviation Variant := string (only parsing).

(** A path is the sequence of its components: [os.path.join] appends
    components and [os.path.dirname] drops the last one.  Context names and
    tool aliases are used by the source as single components. *)
Abbreviation Path := (list string) (only parsing).

Definition os_path_join (a : Path) (p : list string) : Path := a ++ p.

(** ["%s.rxt" % name] *)
Definition rxt (name : string) : string := name +:+ ".rxt".

Module ResolvedContext.
(** The interface of [rez.resolved_context.ResolvedContext] the suite uses:
    [success] and [get_tools(request_only=True)], the latter as the sequence
    of [(variant, tool_names)] values its dict yields. *)
Record t := mk {
  success : bool;
  get_tools : list (Variant * list string)
}.
#[global] Instance ResolvedContext_eq_dec : EqDecision t.
Proof. solve_decision. Defined.
End ResolvedContext.

(** ** Data model *)

Module Data.
(** The per-context dict stored in [Suite.contexts].  Keys that may be
    missing from the dict ([context], [prefix], [suffix]) are options. *)
Record t := mk {
  name : string;
  context : option ResolvedContext.t;
  tool_aliases : gmap string string;
  hidden_tools : gset string;
  description : option string;
  prefix : option string;
  suffix : option string;
  priority : Z
}.
#[global] Instance Data_eq_dec : EqDecision t.
Proof. solve_decision. Defined.

Definition set_context (c : option ResolvedContext.t) (d : t) : t :=
  mk (name d) c (tool_aliases d) (hidden_tools d) (description d)
     (prefix d) (suffix d) (priority d).
Definition set_tool_aliases (a : gmap string string) (d : t) : t :=
  mk (name d) (context d) a (hidden_tools d) (description d)
     (prefix d) (suffix d) (priority d).
Definition set_hidden_tools (h : gset string) (d : t) : t :=
  mk (name d) (context d) (tool_aliases d) h (description d)
     (prefix d) (suffix d) (priority d).
Definition set_prefix (p : string) (d : t) : t :=
  mk (name d) (context d) (tool_aliases d) (hidden_tools d) (description d)
     (Some p) (suffix d) (priority d).
Definition set_suffix (p : string) (d : t) : t :=
  mk (name d) (context d) (tool_aliases d) (hidden_tools d) (description d)
     (prefix d) (Some p) (priority d).
Definition set_priority (p : Z) (d : t) : t :=
  mk (name d) (context d) (tool_aliases d) (hidden_tools d) (description d)
     (prefix d) (suffix d) p.
End Data.

Module Entry.
(** The dict recorded for a tool in [Suite.tools] and
    [Suite.tool_conflicts]. *)
Record t := mk {
  tool_name : string;
  tool_alias : string;
  context_name : string;
  variant : Variant
}.
#[global] Instance Entry_eq_dec : EqDecision t.
Proof. solve_decision. Defined.
End Entry.

(** The attributes of a [Suite] object. *)
Record Suite := mkSuite {
  load_path : option Path;
  contexts : gmap string Data.t;
  next_priority : Z;
  tools : option (gmap string Entry.t);
  tool_conflicts : option (gmap string (list Entry.t))
}.

#[global] Instance Suite_eq_dec : EqDecision Suite.
Proof. solve_decision. Defined.

Definition set_contexts (c : gmap string Data.t) (s : Suite) : Suite :=
  mkSuite (load_path s) c (next_priority s) (tools s) (tool_conflicts s).
Definition set_next_priority (p : Z) (s : Suite) : Suite :=
  mkSuite (load_path s) (contexts s) p (tools s) (tool_conflicts s).
Definition set_tools (t : option (gmap string Entry.t)) (s : Suite) : Suite :=
  mkSuite (load_path s) (contexts s) (next_priority s) t (tool_conflicts s).
Definition set_tool_conflicts (c : option (gmap string (list Entry.t)))
    (s : Suite) : Suite :=
  mkSuite (load_path s) (contexts s) (next_priority s) (tools s) c.
Definition set_load_path (p : option Path) (s : Suite) : Suite :=
  mkSuite p (contexts s) (next_priority s) (tools s) (tool_conflicts s).

(** ** The disk *)

(** What a file holds, up to the serialisation formats (yaml for the suite
    document and the forwarding scripts, the context's own format for
    snapshots), which are taken to round-trip. *)
Inductive File :=
  | SuiteYaml (contexts_ : gmap string Data.t)
  | RxtFile (c : ResolvedContext.t)
  | FwdScript (module func_name context_name tool_name : string)
  | Unparsable.

(** [os.path.join(path, "contexts", "%s.rxt" % name)] *)
Definition rxt_path (path : Path) (name : string) : Path :=
  os_path_join path ["contexts"; rxt name].

#[global] Instance File_eq_dec : EqDecision File.
Proof. solve_decision. Defined.

(** The disk maps the paths of regular files to their contents; a directory
    exists when something lies below it. *)
Definition under (path : Path) (kv : Path * File) : Prop := path `prefix_of` kv.1.

#[global] Instance under_dec path kv : Decision (under path kv).
Proof. unfold under. apply _. Defined.

Definition os_path_exists (fs : gmap Path File) (path : Path) : bool :=
  bool_decide (path ≠ [] ∧ filter (under path) fs ≠ ∅).
Definition os_path_isfile (fs : gmap Path File) (path : Path) : bool :=
  bool_decide (is_Some (fs !! path)).
Definition shutil_rmtree (fs : gmap Path File) (path : Path) : gmap Path File :=
  filter (λ kv, ¬ under path kv) fs.

(** ** Exceptions and the method monad *)

Inductive SuiteMsg :=
  | ContextAlreadyInSuite (name : string)   (* "Context already in suite: %r" *)
  | ContextNotResolved (name : string)      (* "Context is not resolved: %r" *)
  | NoSuchContext (name : string)           (* "No such context: %r" *)
  | NotASuite (path : Path)                 (* "Not a suite: %r" *)
  | FailedLoadingSuite.                     (* "Failed loading suite: %s" *)

Inductive Exc :=
  | SuiteError (msg : SuiteMsg)
  | AssertionError
  | IOError (path : Path)
  | OSError (path : Path)
  | KeyError (key : string)
  | AttributeError
  | ValueError
  | SystemExit (code : Z).

#[global] Instance SuiteMsg_eq_dec : EqDecision SuiteMsg.
Proof. solve_decision. Defined.
#[global] Instance Exc_eq_dec : EqDecision Exc.
Proof. solve_decision. Defined.

Inductive Res (A : Type) :=
  | Ok (a : A)
  | Raise (e : Exc).
Arguments Ok {A} a.
Arguments Raise {A} e.

(** [self] is the suite object a method runs on, [disk] the file system. *)
Record World := mkWorld {
  self : Suite;
  disk : gmap Path File
}.

#[global] Instance World_eq_dec : EqDecision World.
Proof. solve_decision. Defined.

Definition M (A : Type) : Type := World → Res A * World.

Definition ret {A} (a : A) : M A := λ w, (Ok a, w).
Definition raise {A} (e : Exc) : M A := λ w, (Raise e, w).
Definition bind {A B} (m : M A) (k : A → M B) : M B :=
  λ w, match m w with
       | (Ok a, w') => k a w'
       | (Raise e, w') => (Raise e, w')
       end.

Declare Scope method_scope.
Delimit Scope method_scope with method.
Notation "x <- c1 ;; c2" := (bind c1 (λ x, c2))
  (at level 100, c1 at next level, right associativity) : method_scope.
Notation "c1 ;; c2" := (bind c1 (λ _, c2))
  (at level 100, right associativity) : method_scope.
Open Scope method_scope.

Definition get_self : M Suite := λ w, (Ok (self w), w).
Definition put_self (s : Suite) : M unit := λ w, (Ok tt, mkWorld s (disk w)).
Definition modify_self (f : Suite → Suite) : M unit :=
  λ w, (Ok tt, mkWorld (f (self w)) (disk w)).
Definition get_disk : M (gmap Path File) := λ w, (Ok (disk w), w).
Definition put_disk (fs : gmap Path File) : M unit :=
  λ w, (Ok tt, mkWorld (self w) fs).

(** [for x in l: f x] *)
Fixpoint for_ {A} (l : list A) (f : A → M unit) : M unit :=
  match l with
  | [] => ret tt
  | x :: l' => f x ;; for_ l' f
  end.

(** ** [class Suite] *)

(** [Suite.__init__] *)
Definition Suite_init : Suite := mkSuite None ∅ 1 None None.

(** [context_names] *)
Definition context_names (s : Suite) : list string :=
  (map_to_list (contexts s)).*1.

(** [_context]: a data dict is never empty, so [not data] means absent. *)
Definition _context (name : string) : M Data.t :=
  s <- get_self ;;
  match contexts s !! name with
  | Some data => ret data
  | None => raise (SuiteError (NoSuchContext name))
  end.

(** In-place mutation of the data dict found under [name]. *)
Definition update_data (name : string) (f : Data.t → Data.t) : M unit :=
  modify_self (λ s, set_contexts (alter f name (contexts s)) s).

(** [_next_priority] *)
Definition _next_priority : M Z :=
  s <- get_self ;;
  let p := next_priority s in
  put_self (set_next_priority (next_priority s + 1) s) ;;
  ret p.

(** [_flush_tools] *)
Definition _flush_tools : M unit :=
  modify_self (λ s, set_tool_conflicts None (set_tools None s)).

(** [ResolvedContext.load] *)
Definition ResolvedContext_load (path : Path) : M ResolvedContext.t :=
  fs <- get_disk ;;
  match fs !! path with
  | Some (RxtFile c) => ret c
  | _ => raise (IOError path)
  end.

(** [context]: a context object is always truthy. *)
Definition context (name : string) : M ResolvedContext.t :=
  data <- _context name ;;
  match Data.context data with
  | Some context => ret context
  | None =>
      s <- get_self ;;
      match load_path s with
      | None | Some [] => raise AssertionError
      | Some lp =>
          let context_path := rxt_path lp name in
          context <- ResolvedContext_load context_path ;;
          update_data name (Data.set_context (Some context)) ;;
          ret context
      end
  end.

(** [add_context] *)
Definition add_context (name : string) (context : ResolvedContext.t)
    (description : option string) : M unit :=
  s <- get_self ;;
  if decide (name ∈ dom (contexts s)) then
    raise (SuiteError (ContextAlreadyInSuite name))
  else if negb (ResolvedContext.success context) then
    raise (SuiteError (ContextNotResolved name))
  else
    p <- _next_priority ;;
    modify_self (λ s, set_contexts
      (<[name := Data.mk name (Some context) ∅ ∅ description None None p]>
         (contexts s)) s) ;;
    _flush_tools.

(** [remove_context] *)
Definition remove_context (name : string) : M unit :=
  _context name ;;
  modify_self (λ s, set_contexts (delete name (contexts s)) s) ;;
  _flush_tools.

(** [set_context_prefix] *)
Definition set_context_prefix (name prefix : string) : M unit :=
  _context name ;;
  update_data name (Data.set_prefix prefix) ;;
  p <- _next_priority ;;
  update_data name (Data.set_priority p) ;;
  _flush_tools.

(** [set_context_suffix] *)
Definition set_context_suffix (name suffix : string) : M unit :=
  _context name ;;
  update_data name (Data.set_suffix suffix) ;;
  p <- _next_priority ;;
  update_data name (Data.set_priority p) ;;
  _flush_tools.

(** [bump_context] *)
Definition bump_context (name : string) : M unit :=
  _context name ;;
  p <- _next_priority ;;
  update_data name (Data.set_priority p) ;;
  _flush_tools.

(** [hide_tool] *)
Definition hide_tool (context_name tool_name : string) : M unit :=
  data <- _context context_name ;;
  let hidden_tools := Data.hidden_tools data in
  if decide (tool_name ∉ hidden_tools) then
    update_data context_name
      (Data.set_hidden_tools ({[tool_name]} ∪ hidden_tools)) ;;
    _flush_tools
  else ret tt.

(** [unhide_tool] *)
Definition unhide_tool (context_name tool_name : string) : M unit :=
  data <- _context context_name ;;
  let hidden_tools := Data.hidden_tools data in
  if decide (tool_name ∈ hidden_tools) then
    update_data context_name
      (Data.set_hidden_tools (hidden_tools ∖ {[tool_name]})) ;;
    _flush_tools
  else ret tt.

(** [alias_tool] *)
Definition alias_tool (context_name tool_name tool_alias : string) : M unit :=
  data <- _context context_name ;;
  let aliases := Data.tool_aliases data in
  if decide (tool_name ∉ dom aliases) then
    update_data context_name
      (Data.set_tool_aliases (<[tool_name := tool_alias]> aliases)) ;;
    _flush_tools
  else ret tt.

(** [dealias_tool] *)
Definition dealias_tool (context_name tool_name : string) : M unit :=
  data <- _context context_name ;;
  let aliases := Data.tool_aliases data in
  if decide (tool_name ∈ dom aliases) then
    update_data context_name
      (Data.set_tool_aliases (delete tool_name aliases)) ;;
    _flush_tools
  else ret tt.

(** [sorted(l, key=lambda x: x["priority"])]: a stable sort, here by
    insertion. *)
Definition data_le (x y : Data.t) : Prop :=
  (Data.priority x ≤ Data.priority y)%Z.

#[global] Instance data_le_dec x y : Decision (data_le x y).
Proof. unfold data_le. apply _. Defined.

Fixpoint insert_sorted (x : Data.t) (l : list Data.t) : list Data.t :=
  match l with
  | [] => [x]
  | y :: l' => if decide (data_le x y) then x :: l else y :: insert_sorted x l'
  end.

Definition sorted (l : list Data.t) : list Data.t := foldr insert_sorted [] l.

(** [_sorted_contexts]: the data dicts by ascending priority. *)
Definition _sorted_contexts (s : Suite) : list Data.t :=
  sorted (map_to_list (contexts s)).*2.

(** The alias under which a context exposes a tool: its explicit alias, else
    ["%s%s%s" % (prefix, tool_name, suffix)]. *)
Definition exposed_alias (data : Data.t) (tool_name : string) : string :=
  match Data.tool_aliases data !! tool_name with
  | Some alias => alias
  | None =>
      default "" (Data.prefix data) +:+ tool_name +:+ default "" (Data.suffix data)
  end.

(** The last statement of the loop body of [_update_tools]: a claimed alias
    gets a conflict appended ([tool_conflicts] is a [defaultdict(list)]), a
    free alias is claimed. *)
Definition claim (entry : Entry.t) (s : Suite) : Suite :=
  let alias := Entry.tool_alias entry in
  let t := default ∅ (tools s) in
  let c := default ∅ (tool_conflicts s) in
  if decide (alias ∈ dom t) then
    set_tool_conflicts (Some (<[alias := default [] (c !! alias) ++ [entry]]> c)) s
  else
    set_tools (Some (<[alias := entry]> t)) s.

(** [_update_tools] *)
Definition _update_tools : M unit :=
  s <- get_self ;;
  match tools s with
  | Some _ => ret tt
  | None =>
      modify_self (λ s, set_tool_conflicts (Some ∅) (set_tools (Some ∅) s)) ;;
      for_ (reverse (_sorted_contexts s)) (λ data,
        let context_name := Data.name data in
        let hidden_tools := Data.hidden_tools data in
        context <- context context_name ;;
        let context_tools := ResolvedContext.get_tools context in
        for_ context_tools (λ '(variant, tool_names),
          for_ tool_names (λ tool_name,
            if decide (tool_name ∈ hidden_tools) then ret tt
            else
              let alias := exposed_alias data tool_name in
              let entry := Entry.mk tool_name alias context_name variant in
              modify_self (claim entry))))
  end.

(** [get_tools] *)
Definition get_tools : M (option (gmap string Entry.t)) :=
  _update_tools ;;
  s <- get_self ;;
  ret (tools s).

(** [get_conflicting_aliases] *)
Definition get_conflicting_aliases : M (list string) :=
  _update_tools ;;
  s <- get_self ;;
  match tool_conflicts s with
  | Some c => ret (map_to_list c).*1
  | None => raise AttributeError
  end.

(** [get_alias_conflicts]: [dict.get] on the conflict table, [None] when the
    alias is not a key. *)
Definition get_alias_conflicts (tool_alias : string) : M (option (list Entry.t)) :=
  _update_tools ;;
  s <- get_self ;;
  match tool_conflicts s with
  | Some c => ret (c !! tool_alias)
  | None => raise AttributeError
  end.

(** [to_dict]: every data dict without its [context] key. *)
Definition to_dict (s : Suite) : File :=
  SuiteYaml (Data.set_context None <$> contexts s).

(** [max] of a generator: [ValueError] on an empty one. *)
Definition py_max (l : list Z) : Res Z :=
  match l with
  | [] => Raise ValueError
  | x :: l' => Ok (foldl Z.max x l')
  end.

(** [from_dict]: a document without the key [contexts] gives [KeyError]. *)
Definition from_dict (d : File) : Res Suite :=
  match d with
  | SuiteYaml contexts_ =>
      match py_max (Data.priority <$> (map_to_list contexts_).*2) with
      | Ok m => Ok (mkSuite None contexts_ (m + 1) None None)
      | Raise e => Raise e
      end
  | _ => Raise (KeyError "contexts")
  end.

(** [open(filepath, "w")] and a write of [content]. *)
Definition write_file (filepath : Path) (content : File) : M unit :=
  fs <- get_disk ;;
  put_disk (<[filepath := content]> fs).

(** [ResolvedContext.save] *)
Definition ResolvedContext_save (context : ResolvedContext.t) (filepath : Path)
    : M unit :=
  write_file filepath (RxtFile context).

(** [create_forwarding_script] of [rez.util]: the script stores the target
    function and its keyword arguments. *)
Definition create_forwarding_script (filepath : Path)
    (module func_name context_name tool_name : string) : M unit :=
  write_file filepath (FwdScript module func_name context_name tool_name).

(** [save]; [shutil.rmtree] of a regular file raises [OSError], and
    [os.makedirs] has nothing to do since directories are implicit. *)
Definition save (path : Path) : M unit :=
  fs <- get_disk ;;
  (if os_path_exists fs path then
     if os_path_isfile fs path then raise (OSError path)
     else put_disk (shutil_rmtree fs path)
   else ret tt) ;;
  let contexts_path := os_path_join path ["contexts"] in
  (* write suite data *)
  s <- get_self ;;
  let data := to_dict s in
  let filepath := os_path_join path ["suite.yaml"] in
  write_file filepath data ;;
  (* write contexts *)
  for_ (context_names s) (λ context_name,
    context <- context context_name ;;
    let filepath := os_path_join contexts_path [rxt context_name] in
    ResolvedContext_save context filepath) ;;
  (* create alias wrappers *)
  let bin_path := os_path_join path ["bin"] in
  tools <- get_tools ;;
  for_ (map_to_list (default ∅ tools)) (λ '(tool_alias, d),
    let tool_name := Entry.tool_name d in
    let context_name := Entry.context_name d in
    let filepath := os_path_join bin_path [tool_alias] in
    create_forwarding_script filepath "suite" "_FWD__invoke_suite_tool_alias"
      context_name tool_name).

(** [load], a class method: it builds a new suite object from the disk. *)
Definition load (path : Path) : M Suite :=
  fs <- get_disk ;;
  if negb (os_path_exists fs path) then raise (IOError path)
  else
    let filepath := os_path_join path ["suite.yaml"] in
    match fs !! filepath with
    | None => raise (SuiteError (NotASuite path))
    | Some Unparsable => raise (SuiteError FailedLoadingSuite)
    | Some data =>
        match from_dict data with
        | Ok s => ret (set_load_path (Some path) s)
        | Raise e => raise e
        end
    end.

(** ** Sequences of operations on a suite *)

Inductive Op :=
  | AddContext (name : string) (context : ResolvedContext.t)
      (description : option string)
  | RemoveContext (name : string)
  | SetContextPrefix (name prefix : string)
  | SetContextSuffix (name suffix : string)
  | BumpContext (name : string)
  | HideTool (context_name tool_name : string)
  | UnhideTool (context_name tool_name : string)
  | AliasTool (context_name tool_name tool_alias : string)
  | DealiasTool (context_name tool_name : string)
  | GetContext (name : string)
  | GetTools
  | GetConflictingAliases
  | GetAliasConflicts (tool_alias : string)
  | Save (path : Path).

Definition exec (op : Op) : M unit :=
  match op with
  | AddContext name context description => add_context name context description
  | RemoveContext name => remove_context name
  | SetContextPrefix name prefix => set_context_prefix name prefix
  | SetContextSuffix name suffix => set_context_suffix name suffix
  | BumpContext name => bump_context name
  | HideTool context_name tool_name => hide_tool context_name tool_name
  | UnhideTool context_name tool_name => unhide_tool context_name tool_name
  | AliasTool context_name tool_name tool_alias =>
      alias_tool context_name tool_name tool_alias
  | DealiasTool context_name tool_name => dealias_tool context_name tool_name
  | GetContext name => context name ;; ret tt
  | GetTools => get_tools ;; ret tt
  | GetConflictingAliases => get_conflicting_aliases ;; ret tt
  | GetAliasConflicts tool_alias => get_alias_conflicts tool_alias ;; ret tt
  | Save path => save path
  end.

(** A caller runs the operations one after the other and catches what they
    raise: the suite object lives on in the state the exception left it. *)
Definition run_ops (ops : list Op) (w : World) : World :=
  foldl (λ w op, (exec op w).2) w ops.

(** The priority an operation assigned: the one its entry carries once the
    operation has returned, for the four operations that draw a priority. *)
Definition assigned_priority (op : Op) (w : World) : option Z :=
  match exec op w with
  | (Ok _, w') =>
      match op with
      | AddContext name _ _ | SetContextPrefix name _
      | SetContextSuffix name _ | BumpContext name =>
          Data.priority <$> contexts (self w') !! name
      | _ => None
      end
  | (Raise _, _) => None
  end.

(** The priorities assigned along a run, oldest first. *)
Fixpoint assignments (ops : list Op) (w : World) : list Z :=
  match ops with
  | [] => []
  | op :: ops' =>
      option_list (assigned_priority op w) ++ assignments ops' (exec op w).2
  end.

(** ** [class Alias] and the forwarding entry point *)

Module Opts.
(** The namespace [parse_known_args] returns. *)
Record t := mk {
  interactive : bool;
  command : option (list string);
  rcfile : option string;
  norc : bool;
  stdin : bool
}.
Definition empty : t := mk false None None false false.
End Opts.

Module ShellCall.
(** The keyword arguments of a call of [context.execute_shell]. *)
Record t := mk {
  command : option (list string);
  stdin : bool;
  rcfile : option string;
  norc : bool;
  block : bool
}.
End ShellCall.

Module Alias.
Record t := mk {
  context_name : string;
  context : ResolvedContext.t;
  tool_name : string;
  cli_args : list string
}.
End Alias.

(** The process an alias runs in: its argument vector, whether standard
    input has something ready, the [prompt] override of [rez.config] and the
    shells executed so far. *)
Record Process := mkProcess {
  sys_argv : list string;
  stdin_ready : bool;
  config_prompt : option string;
  shell_calls : list (ResolvedContext.t * ShellCall.t)
}.

Section Invoker.
(** [argparse]'s [parse_known_args] for the five options of [Alias.run],
    [None] when it reports a usage error and exits with status 2; and the
    return code of [ResolvedContext.execute_shell]. *)
Variable parse_known_args : list string → option (Opts.t * list string).
Variable execute_shell : ResolvedContext.t → ShellCall.t → Z.

(** [Alias.run]; [parse_known_args()] called without arguments parses
    [sys.argv[1:]]. *)
Definition Alias_run (self : Alias.t) (p : Process) : Res Z * Process :=
  match parse_known_args (tail (sys_argv p)) with
  | None => (Raise (SystemExit 2), p)
  | Some (opts, tool_args) =>
      let stdin := Opts.stdin opts && stdin_ready p in
      let context := Alias.context self in
      let '(cmd, prompt) :=
        match Opts.command opts with
        | Some (c :: cs) => (Some (c :: cs), config_prompt p)
        | _ =>
            if Opts.interactive opts then
              (None, Some (Alias.context_name self +:+ ">"))
            else (Some (Alias.tool_name self :: tool_args), config_prompt p)
        end in
      let call :=
        ShellCall.mk cmd stdin (Opts.rcfile opts) (Opts.norc opts) true in
      (Ok (execute_shell context call),
       mkProcess (sys_argv p) (stdin_ready p) prompt
         (shell_calls p ++ [(context, call)]))
  end.

End Invoker.

(** Modelled from the spec: the argument dialect of section 4.5 and of the
    table of section 6, which [rez.vendor.argparse] implements and which is
    not part of the source given.  A token is an option when it starts with
    [+] and has a second character; the five options are recognised by their
    exact spellings, [++command] takes the tokens up to the next option (at
    least one), [++rcfile] takes one, and everything else is left to the
    wrapped tool.  A missing argument is a usage error. *)
Definition is_option (tok : string) : bool :=
  match tok with
  | String "+"%char (String _ _) => true
  | _ => false
  end.

(** What the parser is waiting for: nothing, further tokens of a
    [++command], or the file of a [++rcfile]. *)
Inductive Mode :=
  | Normal
  | InCommand (taken : list string)
  | WantRcfile.

Definition close_option (mode : Mode) (opts : Opts.t) : option Opts.t :=
  match mode with
  | Normal => Some opts
  | InCommand [] => None
  | InCommand c =>
      Some (Opts.mk (Opts.interactive opts) (Some c) (Opts.rcfile opts)
              (Opts.norc opts) (Opts.stdin opts))
  | WantRcfile => None
  end.

Fixpoint dialect_parse (args : list string) (mode : Mode) (opts : Opts.t)
    (extras : list string) : option (Opts.t * list string) :=
  match args with
  | [] =>
      match close_option mode opts with
      | Some opts => Some (opts, extras)
      | None => None
      end
  | a :: args' =>
      if is_option a then
        match close_option mode opts with
        | None => None
        | Some opts =>
            if bool_decide (a = "+i" ∨ a = "++interactive") then
              dialect_parse args' Normal
                (Opts.mk true (Opts.command opts) (Opts.rcfile opts)
                   (Opts.norc opts) (Opts.stdin opts)) extras
            else if bool_decide (a = "+c" ∨ a = "++command") then
              dialect_parse args' (InCommand []) opts extras
            else if bool_decide (a = "++rcfile") then
              dialect_parse args' WantRcfile opts extras
            else if bool_decide (a = "++norc") then
              dialect_parse args' Normal
                (Opts.mk (Opts.interactive opts) (Opts.command opts)
                   (Opts.rcfile opts) true (Opts.stdin opts)) extras
            else if bool_decide (a = "+s" ∨ a = "++stdin") then
              dialect_parse args' Normal
                (Opts.mk (Opts.interactive opts) (Opts.command opts)
                   (Opts.rcfile opts) (Opts.norc opts) true) extras
            else dialect_parse args' Normal opts (extras ++ [a])
        end
      else
        match mode with
        | Normal => dialect_parse args' Normal opts (extras ++ [a])
        | InCommand taken =>
            dialect_parse args' (InCommand (taken ++ [a])) opts extras
        | WantRcfile =>
            dialect_parse args' Normal
              (Opts.mk (Opts.interactive opts) (Opts.command opts) (Some a)
                 (Opts.norc opts) (Opts.stdin opts)) extras
        end
  end.

Definition dialect (args : list string) : option (Opts.t * list string) :=
  dialect_parse args Normal Opts.empty [].

(** ** Specification predicates *)

(** What [to_dict] keeps of a suite, with its clock and origin: everything
    but the live context objects and the memoized tables. *)
Definition meta (s : Suite) : option Path * gmap string Data.t * Z :=
  (load_path s, Data.set_context None <$> contexts s, next_priority s).

(** Every data dict is stored under its own name. *)
Definition names_ok (s : Suite) : Prop :=
  ∀ k d, contexts s !! k = Some d → Data.name d = k.

(** Every stored priority is below the clock. *)
Definition clock_ok (s : Suite) : Prop :=
  ∀ k d, contexts s !! k = Some d → (Data.priority d < next_priority s)%Z.

(** No two entries carry the same priority. *)
Definition priorities_unique (s : Suite) : Prop :=
  ∀ k1 k2 d1 d2,
    contexts s !! k1 = Some d1 → contexts s !! k2 = Some d2 →
    Data.priority d1 = Data.priority d2 → k1 = k2.

(** The clock is one past the largest stored priority. *)
Definition clock_is_succ_max (s : Suite) : Prop :=
  (∀ k d, contexts s !! k = Some d → (Data.priority d < next_priority s)%Z) ∧
  (∃ k d, contexts s !! k = Some d ∧ next_priority s = (Data.priority d + 1)%Z).

(** A computation leaves an observation [f] of the world as it was. *)
Definition keeps {A X} (f : World → X) (m : M A) : Prop :=
  ∀ w, f (m w).2 = f w.

(** ** Concrete registries used as witnesses *)

Definition maya_context : ResolvedContext.t :=
  ResolvedContext.mk true [("maya-2015", ["maya"])].
Definition nuke_context : ResolvedContext.t :=
  ResolvedContext.mk true [("nuke-9", ["maya"; "nuke"])].
Definition failed_context : ResolvedContext.t :=
  ResolvedContext.mk false [].

Definition empty_world : World := mkWorld Suite_init ∅.

(** The suite of the scenario of the specification: [maya] added first,
    [nuke] second. *)
Definition maya_nuke_world : World :=
  run_ops [AddContext "maya" maya_context None;
           AddContext "nuke" nuke_context None] empty_world.

Definition flushed (lp : option Path) (cs : gmap string Data.t) (np : Z)
    (fs : gmap Path File) : World :=
  mkWorld (mkSuite lp cs np None None) fs.

Definition realias_world : World :=
  run_ops [AliasTool "maya" "maya" "maya2015"; GetTools] maya_nuke_world.

(** The alias a context entry records for a tool. *)
Definition alias_of (w : World) (context_name tool_name : string)
    : option string :=
  contexts (self w) !! context_name ≫= λ d, Data.tool_aliases d !! tool_name.

(** One step of the registry as the priorities see it: the clock does not go
    back, and an entry either keeps its priority or is the one entry [name]
    that received the clock's value, the clock advancing by one. *)
Definition prio_step (name : string) (s s' : Suite) : Prop :=
  (next_priority s ≤ next_priority s')%Z ∧
  ∀ k d', contexts s' !! k = Some d' →
    (∃ d, contexts s !! k = Some d ∧ Data.priority d' = Data.priority d) ∨
    (k = name ∧ Data.priority d' = next_priority s ∧
     next_priority s' = (next_priority s + 1)%Z).

(** The operations that only read the registry, or write it to disk. *)
Definition reads (op : Op) : bool :=
  match op with
  | GetContext _ | GetTools | GetConflictingAliases | GetAliasConflicts _
  | Save _ => true
  | _ => false
  end.

(** The entry an operation addresses. *)
Definition target (op : Op) : string :=
  match op with
  | AddContext name _ _ | RemoveContext name | SetContextPrefix name _
  | SetContextSuffix name _ | BumpContext name | GetContext name => name
  | HideTool name _ | UnhideTool name _ | AliasTool name _ _
  | DealiasTool name _ => name
  | _ => ""
  end.

Definition world_meta (w : World) := meta (self w).

(** A run that draws five priorities and ends with a rejected operation. *)
Definition clock_ops : list Op :=
  [AddContext "maya" maya_context None;
   AddContext "nuke" nuke_context None;
   SetContextPrefix "maya" "fx_";
   BumpContext "nuke";
   HideTool "nuke" "maya";
   SetContextSuffix "maya" "_2015";
   AddContext "maya" nuke_context None].

(** The scenario suite saved under [/suites/fx]. *)
Definition saved_world : World := run_ops [Save ["suites"; "fx"]] maya_nuke_world.

(** The value of a result that is known to be [Ok]. *)
Definition ok_or {A} (d : A) (r : Res A) : A :=
  match r with
  | Ok a => a
  | Raise _ => d
  end.

(** ** Resolution, as a function of the registry *)

(** The entries a context contributes, in the order in which the two inner
    loops of [_update_tools] meet them. *)
Definition context_entries (data : Data.t) (ctx : ResolvedContext.t)
    : list Entry.t :=
  '(variant, tool_names) ← ResolvedContext.get_tools ctx;
  tool_name ← tool_names;
  if decide (tool_name ∈ Data.hidden_tools data) then []
  else [Entry.mk tool_name (exposed_alias data tool_name) (Data.name data)
          variant].

(** The context object [context name] hands out: the live one, else the
    snapshot found under the load path. *)
Definition ctx_of (w : World) (name : string) : option ResolvedContext.t :=
  d ← contexts (self w) !! name;
  match Data.context d with
  | Some c => Some c
  | None =>
      match load_path (self w) with
      | Some (l :: lp) =>
          match disk w !! rxt_path (l :: lp) name with
          | Some (RxtFile c) => Some c
          | _ => None
          end
      | _ => None
      end
  end.

(** The world once [context name] has cached [c] in its entry. *)
Definition materialise (name : string) (c : ResolvedContext.t) (w : World)
    : World :=
  mkWorld
    (set_contexts (alter (Data.set_context (Some c)) name (contexts (self w)))
       (self w))
    (disk w).

(** The entries the contexts [l] contribute, in order. *)
Fixpoint candidates_of (w : World) (l : list Data.t) : option (list Entry.t) :=
  match l with
  | [] => Some []
  | d :: l' =>
      c ← ctx_of w (Data.name d);
      es ← candidates_of w l';
      Some (context_entries d c ++ es)
  end.

(** All candidates of a resolution pass, highest priority first. *)
Definition candidates (w : World) : option (list Entry.t) :=
  candidates_of w (reverse (_sorted_contexts (self w))).

Definition claims (es : list Entry.t) (s : Suite) : Suite :=
  foldl (λ s e, claim e s) s es.

(** The candidates exposed under one alias. *)
Definition with_alias (a : string) (es : list Entry.t) : list Entry.t :=
  filter (λ e, Entry.tool_alias e = a) es.

(** A conflict list is only recorded when it is not empty. *)
Definition recorded (l : list Entry.t) : option (list Entry.t) :=
  match l with
  | [] => None
  | _ => Some l
  end.

(** The tables [t] and [c] are those of the candidates [es]: the first
    candidate of an alias wins, the others are its conflicts, in order. *)
Definition tables_of (es : list Entry.t) (t : gmap string Entry.t)
    (c : gmap string (list Entry.t)) : Prop :=
  ∀ a, t !! a = head (with_alias a es) ∧
       c !! a = recorded (tail (with_alias a es)).

(** The body of the outer loop of [_update_tools]. *)
Definition update_body (data : Data.t) : M unit :=
  let context_name := Data.name data in
  let hidden_tools := Data.hidden_tools data in
  context <- context context_name ;;
  let context_tools := ResolvedContext.get_tools context in
  for_ context_tools (λ '(variant, tool_names),
    for_ tool_names (λ tool_name,
      if decide (tool_name ∈ hidden_tools) then ret tt
      else
        let alias := exposed_alias data tool_name in
        let entry := Entry.mk tool_name alias context_name variant in
        modify_self (claim entry))).

(** What a pass that does not touch the registry leaves in place. *)
Definition frame (w w' : World) : Prop :=
  disk w' = disk w ∧ world_meta w' = world_meta w ∧
  ∀ n, ctx_of w' n = ctx_of w n.

(** The priority of the context an entry names. *)
Definition entry_priority (s : Suite) (e : Entry.t) : option Z :=
  Data.priority <$> contexts s !! Entry.context_name e.

(** Context [k] exposes the entry [e]. *)
Definition exposes (w : World) (k : string) (e : Entry.t) : Prop :=
  ∃ d c, contexts (self w) !! k = Some d ∧ ctx_of w k = Some c ∧
         e ∈ context_entries d c.

(** What [context name] raises when no context object can be had. *)
Definition context_error (w : World) (name : string) : Exc :=
  match contexts (self w) !! name with
  | None => SuiteError (NoSuchContext name)
  | Some _ =>
      match load_path (self w) with
      | Some (l :: lp) => IOError (rxt_path (l :: lp) name)
      | _ => AssertionError
      end
  end.


(** The winner of an alias and its conflicts, as [get_tools] and
    [get_alias_conflicts] report them. *)
Definition winner_of (w : World) (a : string) : option Entry.t :=
  match (get_tools w).1 with
  | Ok (Some t) => t !! a
  | _ => None
  end.

Definition conflicts_of (w : World) (a : string) : option (list Entry.t) :=
  match (get_alias_conflicts a w).1 with
  | Ok r => r
  | Raise _ => None
  end.

(** [e1] comes from a context of strictly higher priority than [e2]. *)
Definition strictly_outranks (s : Suite) (e1 e2 : Entry.t) : Prop :=
  ∃ p1 p2, entry_priority s e1 = Some p1 ∧ entry_priority s e2 = Some p2 ∧
           (p2 < p1)%Z.

#[global] Instance strictly_outranks_dec s e1 e2 :
  Decision (strictly_outranks s e1 e2).
Proof.
  unfold strictly_outranks.
  destruct (entry_priority s e1) as [p1|];
    [|right; by intros (? & ? & ? & _)].
  destruct (entry_priority s e2) as [p2|];
    [|right; by intros (? & ? & _ & ? & _)].
  destruct (decide (p2 < p1)%Z); [left; eauto|right].
  intros (? & ? & ? & ? & ?). by simplify_eq.
Defined.

Definition houdini_context : ResolvedContext.t :=
  ResolvedContext.mk true [("houdini-14", ["maya"; "houdini"])].

(** Three contexts that all expose [maya]: a three-way conflict. *)
Definition three_way_world : World :=
  run_ops [AddContext "maya" maya_context None;
           AddContext "nuke" nuke_context None;
           AddContext "houdini" houdini_context None] empty_world.



(** The scenario suite once resolved. *)
Definition resolved_world : World := (_update_tools maya_nuke_world).2.

(** ** What the tables may hold *)

(** The entry names a context of the registry, and a tool that context does
    not hide. *)
Definition entry_admissible (s : Suite) (e : Entry.t) : Prop :=
  ∃ d, contexts s !! Entry.context_name e = Some d ∧
       Entry.tool_name e ∉ Data.hidden_tools d.

(** Every entry of the memoized tables, winners and conflicts, is
    admissible. *)
Definition tables_admissible (s : Suite) : Prop :=
  (∀ t a e, tools s = Some t → t !! a = Some e → entry_admissible s e) ∧
  (∀ c a l e, tool_conflicts s = Some c → c !! a = Some l → e ∈ l →
              entry_admissible s e).

Definition suite_ok (w : World) : Prop :=
  names_ok (self w) ∧ tables_admissible (self w).

(** A context of the registry, up to the context object it holds. *)
Definition registered (w : World) (d : Data.t) : Prop :=
  ∃ k d', contexts (self w) !! k = Some d' ∧
          Data.set_context None d' = Data.set_context None d.

(** A computation maintains an invariant, also when it raises. *)
Definition preserves {A} (I : World → Prop) (m : M A) : Prop :=
  ∀ w, I w → I (m w).2.

(** A run that hides a tool, removes a context and resolves in between. *)
Definition hide_ops : list Op :=
  [AddContext "maya" maya_context None;
   AddContext "nuke" nuke_context None;
   AddContext "houdini" houdini_context None;
   GetTools;
   HideTool "houdini" "maya";
   GetAliasConflicts "maya";
   RemoveContext "nuke";
   HideTool "houdini" "maya"].

(** Every entry holds a live context object. *)
Definition all_live (w : World) : Prop :=
  ∀ k d, contexts (self w) !! k = Some d → is_Some (Data.context d).

(** The suite found at [path], put in the place of the one at hand. *)
Definition reload (path : Path) (w : World) : World :=
  match load path w with
  | (Ok s, w') => mkWorld s (disk w')
  | (Raise _, w') => w'
  end.

(** The scenario suite, saved and loaded again. *)
Definition loaded_world : World := reload ["suites"; "fx"] saved_world.

(** A suite built by [from_dict] alone: no context objects, no load path. *)
Definition detached_world : World :=
  mkWorld (set_load_path None (self loaded_world)) (disk loaded_world).

(** The loaded scenario suite after the snapshot of [maya] has been lost
    from the disk. *)
Definition broken_world : World :=
  mkWorld (self loaded_world)
    (delete (rxt_path ["suites"; "fx"] "maya") (disk loaded_world)).

(** ** The steps of [save] *)






(** Two worlds show the same suite: same metadata, same tables, and the
    same context object for every name. *)
Definition same_suite (w w' : World) : Prop :=
  world_meta w' = world_meta w ∧
  tools (self w') = tools (self w) ∧
  tool_conflicts (self w') = tool_conflicts (self w) ∧
  ∀ n, ctx_of w' n = ctx_of w n.

(** A suite from which the last context has been removed. *)
Definition emptied_world : World :=
  run_ops [RemoveContext "maya"; RemoveContext "nuke"] maya_nuke_world.



(** ** Observations on a process *)

(** The shell an alias has executed last, with its arguments. *)
Definition last_call (p : Process) : option (ResolvedContext.t * ShellCall.t) :=
  last (shell_calls p).


(** A process started as [maya file.ma] with nothing on standard input. *)
Definition maya_process : Process :=
  mkProcess ["maya"; "file.ma"] false None [].

(** A shell that always returns 0. *)
Definition quiet_shell (c : ResolvedContext.t) (call : ShellCall.t) : Z := 0.

(** * Properties *)

(** ** The method monad *)

(** Closed decidable facts are settled by evaluation. *)
Ltac by_compute := apply (bool_decide_unpack _); vm_compute; exact I.

Ltac unfold_m :=
  unfold bind, ret, raise, get_self, put_self, modify_self, get_disk,
    put_disk in *; simpl in *.

Lemma keeps_ret {A X} (f : World → X) (a : A) : keeps f (ret a).
Proof. by intros w. Qed.

Lemma keeps_raise {A X} (f : World → X) e : keeps f (raise (A:=A) e).
Proof. by intros w. Qed.

Lemma keeps_bind {A B X} (f : World → X) (m : M A) (k : A → M B) :
  keeps f m → (∀ a, keeps f (k a)) → keeps f (bind m k).
Proof.
  intros Hm Hk w. unfold bind. specialize (Hm w).
  destruct (m w) as [[a|e] w']; simpl in *.
  - by rewrite Hk.
  - done.
Qed.

Lemma keeps_for {A X} (f : World → X) (l : list A) (body : A → M unit) :
  (∀ a, keeps f (body a)) → keeps f (for_ l body).
Proof.
  intros Hb. induction l as [|a l IH]; simpl.
  - apply keeps_ret.
  - apply keeps_bind; auto.
Qed.

Lemma keeps_get_self {X} (f : World → X) : keeps f get_self.
Proof. by intros w. Qed.

Lemma keeps_get_disk {X} (f : World → X) : keeps f get_disk.
Proof. by intros w. Qed.

Lemma keeps_if {A X} (f : World → X) (b : bool) (m1 m2 : M A) :
  keeps f m1 → keeps f m2 → keeps f (if b then m1 else m2).
Proof. by destruct b. Qed.

Lemma keeps_decide {A X} (f : World → X) (P : Prop) `{!Decision P}
    (m1 m2 : M A) :
  keeps f m1 → keeps f m2 → keeps f (if decide P then m1 else m2).
Proof. by destruct (decide P). Qed.

(** ** What the suite's metadata determines *)

Lemma meta_lookup s s' k :
  meta s = meta s' →
  Data.set_context None <$> contexts s !! k =
  Data.set_context None <$> contexts s' !! k.
Proof.
  unfold meta. intros [= _ Hc _]. by rewrite <- !lookup_fmap, Hc.
Qed.

Lemma meta_lookup_Some s s' k d' :
  meta s = meta s' → contexts s' !! k = Some d' →
  ∃ d, contexts s !! k = Some d ∧
       Data.set_context None d = Data.set_context None d'.
Proof.
  intros Hm Hk. pose proof (meta_lookup s s' k Hm) as H.
  rewrite Hk in H. destruct (contexts s !! k) as [d|]; simpl in H; [|done].
  exists d. split; [done|]. by apply (inj Some).
Qed.

Lemma set_context_None_inv d d' :
  Data.set_context None d = Data.set_context None d' →
  Data.name d = Data.name d' ∧
  Data.tool_aliases d = Data.tool_aliases d' ∧
  Data.hidden_tools d = Data.hidden_tools d' ∧
  Data.prefix d = Data.prefix d' ∧
  Data.suffix d = Data.suffix d' ∧
  Data.priority d = Data.priority d'.
Proof.
  destruct d, d'. unfold Data.set_context. simpl.
  intros H. injection H as -> -> -> _ -> -> ->. done.
Qed.

Lemma meta_clock s s' : meta s = meta s' → next_priority s = next_priority s'.
Proof. unfold meta. by intros [= _ _ ?]. Qed.

Lemma names_ok_meta s s' : meta s = meta s' → names_ok s → names_ok s'.
Proof.
  intros Hm H k d' Hk.
  destruct (meta_lookup_Some _ _ _ _ Hm Hk) as (d & Hd & Heq).
  apply set_context_None_inv in Heq as (<- & _). eauto.
Qed.

Lemma clock_ok_meta s s' : meta s = meta s' → clock_ok s → clock_ok s'.
Proof.
  intros Hm H k d' Hk.
  destruct (meta_lookup_Some _ _ _ _ Hm Hk) as (d & Hd & Heq).
  apply set_context_None_inv in Heq as (_ & _ & _ & _ & _ & <-).
  rewrite <- (meta_clock _ _ Hm). eauto.
Qed.

Lemma priorities_unique_meta s s' :
  meta s = meta s' → priorities_unique s → priorities_unique s'.
Proof.
  intros Hm H k1 k2 d1' d2' Hk1 Hk2 Hp.
  destruct (meta_lookup_Some _ _ _ _ Hm Hk1) as (d1 & Hd1 & Heq1).
  destruct (meta_lookup_Some _ _ _ _ Hm Hk2) as (d2 & Hd2 & Heq2).
  apply set_context_None_inv in Heq1 as (_ & _ & _ & _ & _ & Hp1).
  apply set_context_None_inv in Heq2 as (_ & _ & _ & _ & _ & Hp2).
  apply (H k1 k2 d1 d2); congruence.
Qed.

(** Materialising a context, claiming an alias and flushing the tables leave
    the metadata alone. *)
Lemma meta_alter_context s name c :
  meta (set_contexts (alter (Data.set_context c) name (contexts s)) s) = meta s.
Proof.
  unfold meta. simpl. f_equal. f_equal. apply map_eq. intros k.
  rewrite !lookup_fmap, lookup_alter.
  case_decide; subst; [|done]. by destruct (contexts s !! k).
Qed.

Lemma meta_claim entry s : meta (claim entry s) = meta s.
Proof. unfold claim. by case_decide. Qed.


Lemma keeps_meta_context name : keeps world_meta (context name).
Proof.
  intros w. unfold context, _context, update_data, ResolvedContext_load.
  unfold_m. destruct (contexts (self w) !! name) as [d|]; [|done]. simpl.
  destruct (Data.context d); [done|]. simpl.
  destruct (load_path (self w)) as [[|c lp]|]; try done. simpl.
  destruct (disk w !! _) as [[]|]; try done. simpl.
  unfold world_meta. simpl. apply meta_alter_context.
Qed.

Lemma keeps_meta_update_tools : keeps world_meta _update_tools.
Proof.
  unfold _update_tools. apply keeps_bind; [apply keeps_get_self|].
  intros s. destruct (tools s); [apply keeps_ret|].
  apply keeps_bind; [by intros w|]. intros _.
  apply keeps_for. intros data.
  apply keeps_bind; [apply keeps_meta_context|]. intros ctx.
  apply keeps_for. intros [variant tool_names].
  apply keeps_for. intros tool_name.
  apply keeps_decide; [apply keeps_ret|].
  intros w. unfold world_meta. simpl. apply meta_claim.
Qed.

Lemma keeps_meta_get_tools : keeps world_meta get_tools.
Proof.
  unfold get_tools. apply keeps_bind; [apply keeps_meta_update_tools|].
  intros _. apply keeps_bind; [apply keeps_get_self|]. intros s.
  apply keeps_ret.
Qed.

Lemma keeps_meta_write_file filepath content :
  keeps world_meta (write_file filepath content).
Proof. by intros w. Qed.

Lemma keeps_meta_save path : keeps world_meta (save path).
Proof.
  unfold save. apply keeps_bind; [apply keeps_get_disk|]. intros fs.
  apply keeps_bind.
  { repeat apply keeps_if; try apply keeps_raise; try apply keeps_ret.
    by intros w. }
  intros _. apply keeps_bind; [apply keeps_get_self|]. intros s.
  apply keeps_bind; [apply keeps_meta_write_file|]. intros _.
  apply keeps_bind.
  { apply keeps_for. intros n. apply keeps_bind; [apply keeps_meta_context|].
    intros c. apply keeps_meta_write_file. }
  intros _. apply keeps_bind; [apply keeps_meta_get_tools|]. intros t.
  apply keeps_for. intros [a d]. apply keeps_meta_write_file.
Qed.

(** ** The net effect of the registry mutations *)


Lemma add_context_effect name ctx descr w :
  add_context name ctx descr w =
    let s := self w in
    if decide (name ∈ dom (contexts s)) then
      (Raise (SuiteError (ContextAlreadyInSuite name)), w)
    else if ResolvedContext.success ctx then
      (Ok tt,
       flushed (load_path s)
         (<[name := Data.mk name (Some ctx) ∅ ∅ descr None None (next_priority s)]>
            (contexts s))
         (next_priority s + 1) (disk w))
    else (Raise (SuiteError (ContextNotResolved name)), w).
Proof.
  unfold add_context, _next_priority, _flush_tools. unfold_m.
  case_decide; [done|]. by destruct (ResolvedContext.success ctx).
Qed.

Lemma remove_context_effect name w :
  remove_context name w =
    let s := self w in
    match contexts s !! name with
    | None => (Raise (SuiteError (NoSuchContext name)), w)
    | Some _ =>
        (Ok tt, flushed (load_path s) (delete name (contexts s))
                  (next_priority s) (disk w))
    end.
Proof.
  unfold remove_context, _context, _flush_tools. unfold_m.
  by destruct (contexts (self w) !! name).
Qed.

Lemma set_context_prefix_effect name prefix w :
  set_context_prefix name prefix w =
    let s := self w in
    match contexts s !! name with
    | None => (Raise (SuiteError (NoSuchContext name)), w)
    | Some _ =>
        (Ok tt,
         flushed (load_path s)
           (alter (Data.set_priority (next_priority s) ∘ Data.set_prefix prefix)
              name (contexts s))
           (next_priority s + 1) (disk w))
    end.
Proof.
  unfold set_context_prefix, _context, _next_priority, _flush_tools,
    update_data. unfold_m.
  destruct (contexts (self w) !! name); [|done]. simpl.
  by rewrite alter_alter_eq.
Qed.

Lemma set_context_suffix_effect name suffix w :
  set_context_suffix name suffix w =
    let s := self w in
    match contexts s !! name with
    | None => (Raise (SuiteError (NoSuchContext name)), w)
    | Some _ =>
        (Ok tt,
         flushed (load_path s)
           (alter (Data.set_priority (next_priority s) ∘ Data.set_suffix suffix)
              name (contexts s))
           (next_priority s + 1) (disk w))
    end.
Proof.
  unfold set_context_suffix, _context, _next_priority, _flush_tools,
    update_data. unfold_m.
  destruct (contexts (self w) !! name); [|done]. simpl.
  by rewrite alter_alter_eq.
Qed.

Lemma bump_context_effect name w :
  bump_context name w =
    let s := self w in
    match contexts s !! name with
    | None => (Raise (SuiteError (NoSuchContext name)), w)
    | Some _ =>
        (Ok tt,
         flushed (load_path s)
           (alter (Data.set_priority (next_priority s)) name (contexts s))
           (next_priority s + 1) (disk w))
    end.
Proof.
  unfold bump_context, _context, _next_priority, _flush_tools, update_data.
  unfold_m. by destruct (contexts (self w) !! name).
Qed.

Lemma hide_tool_effect context_name tool_name w :
  hide_tool context_name tool_name w =
    let s := self w in
    match contexts s !! context_name with
    | None => (Raise (SuiteError (NoSuchContext context_name)), w)
    | Some data =>
        if decide (tool_name ∈ Data.hidden_tools data) then (Ok tt, w)
        else
          (Ok tt,
           flushed (load_path s)
             (alter (Data.set_hidden_tools ({[tool_name]} ∪ Data.hidden_tools data))
                context_name (contexts s))
             (next_priority s) (disk w))
    end.
Proof.
  unfold hide_tool, _context, _flush_tools, update_data. unfold_m.
  destruct (contexts (self w) !! context_name); [|done]. simpl.
  by repeat case_decide.
Qed.

Lemma unhide_tool_effect context_name tool_name w :
  unhide_tool context_name tool_name w =
    let s := self w in
    match contexts s !! context_name with
    | None => (Raise (SuiteError (NoSuchContext context_name)), w)
    | Some data =>
        if decide (tool_name ∈ Data.hidden_tools data) then
          (Ok tt,
           flushed (load_path s)
             (alter (Data.set_hidden_tools (Data.hidden_tools data ∖ {[tool_name]}))
                context_name (contexts s))
             (next_priority s) (disk w))
        else (Ok tt, w)
    end.
Proof.
  unfold unhide_tool, _context, _flush_tools, update_data. unfold_m.
  destruct (contexts (self w) !! context_name); [|done]. simpl.
  by repeat case_decide.
Qed.

Lemma alias_tool_effect context_name tool_name tool_alias w :
  alias_tool context_name tool_name tool_alias w =
    let s := self w in
    match contexts s !! context_name with
    | None => (Raise (SuiteError (NoSuchContext context_name)), w)
    | Some data =>
        if decide (tool_name ∈ dom (Data.tool_aliases data)) then (Ok tt, w)
        else
          (Ok tt,
           flushed (load_path s)
             (alter (Data.set_tool_aliases
                       (<[tool_name := tool_alias]> (Data.tool_aliases data)))
                context_name (contexts s))
             (next_priority s) (disk w))
    end.
Proof.
  unfold alias_tool, _context, _flush_tools, update_data. unfold_m.
  destruct (contexts (self w) !! context_name); [|done]. simpl.
  by repeat case_decide.
Qed.

Lemma dealias_tool_effect context_name tool_name w :
  dealias_tool context_name tool_name w =
    let s := self w in
    match contexts s !! context_name with
    | None => (Raise (SuiteError (NoSuchContext context_name)), w)
    | Some data =>
        if decide (tool_name ∈ dom (Data.tool_aliases data)) then
          (Ok tt,
           flushed (load_path s)
             (alter (Data.set_tool_aliases (delete tool_name (Data.tool_aliases data)))
                context_name (contexts s))
             (next_priority s) (disk w))
        else (Ok tt, w)
    end.
Proof.
  unfold dealias_tool, _context, _flush_tools, update_data. unfold_m.
  destruct (contexts (self w) !! context_name); [|done]. simpl.
  by repeat case_decide.
Qed.

(** ** Adding a context *)

(** C8: [add_context] raises [SuiteError] "Context already in suite" when
    the name is present, and [SuiteError] "Context is not resolved" when the
    name is free and the context did not resolve; in both cases the world is
    left exactly as it was.  Otherwise it succeeds: the new entry holds the
    context, carries the priority the clock showed, has no hidden tools, no
    aliases, no prefix and no suffix, the other entries are untouched, the
    clock has advanced by one and the memoized tables are invalidated. *)
Theorem add_context_all_or_nothing name ctx descr w :
  (name ∈ dom (contexts (self w)) →
     add_context name ctx descr w =
       (Raise (SuiteError (ContextAlreadyInSuite name)), w)) ∧
  (name ∉ dom (contexts (self w)) → ResolvedContext.success ctx = false →
     add_context name ctx descr w =
       (Raise (SuiteError (ContextNotResolved name)), w)) ∧
  (name ∉ dom (contexts (self w)) → ResolvedContext.success ctx = true →
     ∃ w', add_context name ctx descr w = (Ok tt, w') ∧
       contexts (self w') !! name =
         Some (Data.mk name (Some ctx) ∅ ∅ descr None None
                 (next_priority (self w))) ∧
       (∀ k, k ≠ name → contexts (self w') !! k = contexts (self w) !! k) ∧
       next_priority (self w') = (next_priority (self w) + 1)%Z ∧
       tools (self w') = None ∧ tool_conflicts (self w') = None ∧
       load_path (self w') = load_path (self w) ∧ disk w' = disk w).
Proof.
  rewrite add_context_effect. simpl. split; [|split].
  - intros Hin. by rewrite decide_True.
  - intros Hnin Hs. by rewrite decide_False, Hs.
  - intros Hnin Hs. rewrite decide_False, Hs by done.
    eexists. split; [done|]. simpl.
    rewrite lookup_insert_eq. split; [done|].
    split; [|done]. intros k Hk. by rewrite lookup_insert_ne.
Qed.

Lemma add_context_all_or_nothing_witness :
  add_context "maya" maya_context None maya_nuke_world =
    (Raise (SuiteError (ContextAlreadyInSuite "maya")), maya_nuke_world) ∧
  add_context "houdini" failed_context None maya_nuke_world =
    (Raise (SuiteError (ContextNotResolved "houdini")), maya_nuke_world) ∧
  ∃ w', add_context "houdini" maya_context None maya_nuke_world = (Ok tt, w') ∧
    contexts (self w') !! "houdini" =
      Some (Data.mk "houdini" (Some maya_context) ∅ ∅ None None None 3).
Proof.
  split; [|split].
  - apply (add_context_all_or_nothing "maya" maya_context None maya_nuke_world).
    by_compute.
  - apply (add_context_all_or_nothing "houdini" failed_context None
             maya_nuke_world).
    + by_compute.
    + reflexivity.
  - destruct (add_context_all_or_nothing "houdini" maya_context None
                maya_nuke_world) as (_ & _ & H).
    destruct H as (w' & Hrun & Hentry & _).
    + by_compute.
    + reflexivity.
    + exists w'. split; [exact Hrun|exact Hentry].
Defined.

(** ** Aliasing a tool *)

Lemma update_tools_memoized w :
  is_Some (tools (self w)) → _update_tools w = (Ok tt, w).
Proof. intros [t Ht]. unfold _update_tools. unfold_m. by rewrite Ht. Qed.



(** C3, as stated, fails: with ["maya"] aliased to ["maya2015"] the entry is
    not in the state requested by [alias_tool "maya" "maya" "mayabatch"], yet
    the call leaves the world as it was, memoized tables included, and the
    requested mapping is not recorded. *)
Lemma alias_tool_realias_ignored :
  let w' := (alias_tool "maya" "maya" "mayabatch" realias_world).2 in
  alias_of realias_world "maya" "maya" ≠ Some "mayabatch" ∧
  is_Some (tools (self realias_world)) ∧
  w' = realias_world ∧
  alias_of w' "maya" "maya" ≠ Some "mayabatch".
Proof.
  assert (Hrun : (alias_tool "maya" "maya" "mayabatch" realias_world).2
                 = realias_world) by (by vm_compute).
  assert (Hal : alias_of realias_world "maya" "maya" = Some "maya2015")
    by (by vm_compute).
  cbv zeta. rewrite Hrun, Hal.
  split; [by_compute|]. split; [by eexists|]. split; [reflexivity|by_compute].
Qed.

(** C3, amended: on an existing context, [alias_tool] changes nothing (and
    so keeps the memoized tables) exactly when the tool already has an
    alias, whichever it is; otherwise it records the mapping and invalidates
    the tables.  [dealias_tool] changes nothing when the tool has no alias,
    so that the next resolution returns the memoized tables as they are;
    otherwise it removes the mapping and invalidates the tables. *)
Theorem alias_tool_noop_iff_aliased context_name tool_name tool_alias w data :
  contexts (self w) !! context_name = Some data →
  let aliases := Data.tool_aliases data in
  (∃ w', alias_tool context_name tool_name tool_alias w = (Ok tt, w') ∧
     (w' = w ↔ tool_name ∈ dom aliases) ∧
     (tool_name ∉ dom aliases →
        w' = flushed (load_path (self w))
               (<[context_name :=
                    Data.set_tool_aliases (<[tool_name := tool_alias]> aliases)
                      data]> (contexts (self w)))
               (next_priority (self w)) (disk w))) ∧
  (∃ w', dealias_tool context_name tool_name w = (Ok tt, w') ∧
     (tool_name ∉ dom aliases →
        w' = w ∧ (is_Some (tools (self w)) → _update_tools w' = (Ok tt, w'))) ∧
     (tool_name ∈ dom aliases →
        w' = flushed (load_path (self w))
               (<[context_name :=
                    Data.set_tool_aliases (delete tool_name aliases) data]>
                  (contexts (self w)))
               (next_priority (self w)) (disk w))).
Proof.
  intros Hdata aliases. split.
  - rewrite alias_tool_effect. simpl. rewrite Hdata.
    fold aliases. destruct (decide (tool_name ∈ dom aliases)) as [Hin|Hnin].
    + exists w. split; [done|]. split; [done|]. done.
    + eexists. split; [done|]. split.
      * split; [|done]. intros Hw. exfalso.
        apply (f_equal (λ w, contexts (self w) !! context_name)) in Hw.
        simpl in Hw. rewrite lookup_alter_eq, Hdata in Hw. simpl in Hw.
        apply (inj Some) in Hw.
        apply (f_equal (λ d, Data.tool_aliases d !! tool_name)) in Hw.
        simpl in Hw. rewrite lookup_insert_eq in Hw.
        apply Hnin, elem_of_dom. unfold aliases. rewrite <- Hw. by eexists.
      * intros _. unfold flushed. do 2 f_equal.
        apply map_eq. intros k. rewrite lookup_alter, lookup_insert.
        case_decide; subst; [by rewrite Hdata|done].
  - rewrite dealias_tool_effect. simpl. rewrite Hdata.
    fold aliases. destruct (decide (tool_name ∈ dom aliases)) as [Hin|Hnin].
    + eexists. split; [done|]. split; [done|]. intros _.
      unfold flushed. do 2 f_equal.
      apply map_eq. intros k. rewrite lookup_alter, lookup_insert.
      case_decide; subst; [by rewrite Hdata|done].
    + exists w. split; [done|]. split; [|done]. intros _.
      split; [done|]. apply update_tools_memoized.
Qed.

Lemma alias_tool_noop_iff_aliased_witness :
  (∃ w', alias_tool "nuke" "nuke" "nuke9" realias_world = (Ok tt, w') ∧
     w' ≠ realias_world ∧
     alias_of w' "nuke" "nuke" = Some "nuke9" ∧
     tools (self w') = None) ∧
  dealias_tool "nuke" "nuke" realias_world = (Ok tt, realias_world).
Proof.
  destruct (contexts (self realias_world) !! "nuke") as [data|] eqn:Hdata;
    [|vm_compute in Hdata; discriminate Hdata].
  assert (Hal : Data.tool_aliases <$> contexts (self realias_world) !! "nuke"
                = Some ∅) by (vm_compute; reflexivity).
  rewrite Hdata in Hal. apply (inj Some) in Hal.
  destruct (alias_tool_noop_iff_aliased "nuke" "nuke" "nuke9" realias_world
              data Hdata) as [(w1 & Hrun1 & Hiff & Hrec) (w2 & Hrun2 & Hno & _)].
  assert (Hnin : "nuke" ∉ dom (Data.tool_aliases data)).
  { rewrite Hal, dom_empty_L. apply not_elem_of_empty. }
  split.
  - exists w1. split; [exact Hrun1|]. split; [by rewrite Hiff|].
    rewrite (Hrec Hnin). unfold alias_of, flushed. cbn [self contexts tools].
    rewrite lookup_insert_eq.
    cbn [mbind option_bind Data.tool_aliases Data.set_tool_aliases].
    rewrite lookup_insert_eq. split; reflexivity.
  - rewrite Hrun2. f_equal. exact (proj1 (Hno Hnin)).
Defined.

(** ** The priority clock *)


Lemma prio_step_clock_ok name s s' :
  prio_step name s s' → clock_ok s → clock_ok s'.
Proof.
  intros [Hle Hstep] Hok k d' Hk.
  destruct (Hstep k d' Hk) as [(d & Hd & ->)|(_ & -> & ->)]; [|lia].
  specialize (Hok k d Hd). lia.
Qed.

Lemma prio_step_unique name s s' :
  prio_step name s s' → clock_ok s → priorities_unique s →
  priorities_unique s'.
Proof.
  intros [Hle Hstep] Hok Hu k1 k2 d1 d2 Hk1 Hk2 Hp.
  destruct (Hstep k1 d1 Hk1) as [(e1 & He1 & Hp1)|(-> & Hp1 & _)];
    destruct (Hstep k2 d2 Hk2) as [(e2 & He2 & Hp2)|(-> & Hp2 & _)].
  - apply (Hu k1 k2 e1 e2); congruence.
  - specialize (Hok k1 e1 He1). lia.
  - specialize (Hok k2 e2 He2). lia.
  - done.
Qed.

Lemma prio_step_meta name s s' : meta s = meta s' → prio_step name s s'.
Proof.
  intros Hm. split; [by rewrite (meta_clock _ _ Hm)|].
  intros k d' Hk. left.
  destruct (meta_lookup_Some _ _ _ _ Hm Hk) as (d & Hd & Heq).
  apply set_context_None_inv in Heq as (_ & _ & _ & _ & _ & Hp). eauto.
Qed.

Lemma prio_step_alter_keep name s (f : Data.t → Data.t) lp t c :
  (∀ d, Data.priority (f d) = Data.priority d) →
  prio_step name s
    (mkSuite lp (alter f name (contexts s)) (next_priority s) t c).
Proof.
  intros Hf. split; [done|]. simpl. intros k d'. rewrite lookup_alter.
  case_decide; subst; [|by eauto].
  destruct (contexts s !! k) as [d|]; [|done]. simpl.
  intros [= <-]. left. eauto.
Qed.

Lemma prio_step_alter_assign name s (f : Data.t → Data.t) lp t c :
  prio_step name s
    (mkSuite lp (alter (Data.set_priority (next_priority s) ∘ f) name (contexts s))
       (next_priority s + 1) t c).
Proof.
  split; [simpl; lia|]. simpl. intros k d'. rewrite lookup_alter.
  case_decide; subst; [|by eauto].
  destruct (contexts s !! k) as [d|]; [|done]. simpl.
  intros [= <-]. by right.
Qed.


Lemma keeps_meta_reads op : reads op = true → keeps world_meta (exec op).
Proof.
  destruct op; try done; intros _; simpl.
  - apply keeps_bind; [apply keeps_meta_context|]. intros. apply keeps_ret.
  - apply keeps_bind; [apply keeps_meta_get_tools|]. intros. apply keeps_ret.
  - apply keeps_bind; [|intros; apply keeps_ret].
    unfold get_conflicting_aliases.
    apply keeps_bind; [apply keeps_meta_update_tools|]. intros _.
    apply keeps_bind; [apply keeps_get_self|]. intros s.
    destruct (tool_conflicts s); [apply keeps_ret|apply keeps_raise].
  - apply keeps_bind; [|intros; apply keeps_ret].
    unfold get_alias_conflicts.
    apply keeps_bind; [apply keeps_meta_update_tools|]. intros _.
    apply keeps_bind; [apply keeps_get_self|]. intros s.
    destruct (tool_conflicts s); [apply keeps_ret|apply keeps_raise].
  - apply keeps_meta_save.
Qed.


Lemma prio_step_refl name s : prio_step name s s.
Proof. split; [done|]. intros k d' Hk. left. eauto. Qed.

Lemma exec_prio_step op w :
  prio_step (target op) (self w) (self (exec op w).2).
Proof.
  destruct (reads op) eqn:Hr.
  { apply prio_step_meta. symmetry. apply (keeps_meta_reads op Hr w). }
  destruct op; try done; simpl.
  - rewrite add_context_effect. simpl.
    case_decide; [apply prio_step_refl|].
    destruct (ResolvedContext.success context0); [|apply prio_step_refl].
    split; [simpl; lia|]. simpl. intros k d'. rewrite lookup_insert.
    case_decide; subst; [|by eauto]. intros [= <-]. by right.
  - rewrite remove_context_effect. simpl.
    destruct (contexts (self w) !! name); [|apply prio_step_refl].
    split; [done|]. simpl. intros k d'. rewrite lookup_delete.
    case_decide; [done|]. eauto.
  - rewrite set_context_prefix_effect. simpl.
    destruct (contexts (self w) !! name); [|apply prio_step_refl].
    apply prio_step_alter_assign.
  - rewrite set_context_suffix_effect. simpl.
    destruct (contexts (self w) !! name); [|apply prio_step_refl].
    apply prio_step_alter_assign.
  - rewrite bump_context_effect. simpl.
    destruct (contexts (self w) !! name); [|apply prio_step_refl].
    apply (prio_step_alter_assign _ _ id).
  - rewrite hide_tool_effect. simpl.
    destruct (contexts (self w) !! context_name); [|apply prio_step_refl].
    case_decide; [apply prio_step_refl|]. by apply prio_step_alter_keep.
  - rewrite unhide_tool_effect. simpl.
    destruct (contexts (self w) !! context_name); [|apply prio_step_refl].
    case_decide; [|apply prio_step_refl]. by apply prio_step_alter_keep.
  - rewrite alias_tool_effect. simpl.
    destruct (contexts (self w) !! context_name); [|apply prio_step_refl].
    case_decide; [apply prio_step_refl|]. by apply prio_step_alter_keep.
  - rewrite dealias_tool_effect. simpl.
    destruct (contexts (self w) !! context_name); [|apply prio_step_refl].
    case_decide; [|apply prio_step_refl]. by apply prio_step_alter_keep.
Qed.

(** The priority an operation assigns is the value the clock showed, and the
    clock has then moved past it. *)
Lemma assigned_priority_clock op w p :
  assigned_priority op w = Some p →
  p = next_priority (self w) ∧
  next_priority (self (exec op w).2) = (p + 1)%Z.
Proof.
  unfold assigned_priority.
  destruct op; try (by destruct (exec _ w) as [[[]|] ?]); cbn [exec].
  - rewrite add_context_effect. cbv zeta. case_decide; [done|].
    destruct (ResolvedContext.success context0); [|done]. simpl.
    rewrite lookup_insert_eq. by intros [= <-].
  - rewrite set_context_prefix_effect. cbv zeta.
    destruct (contexts (self w) !! name) eqn:E; [|done]. simpl.
    rewrite lookup_alter_eq, E. by intros [= <-].
  - rewrite set_context_suffix_effect. cbv zeta.
    destruct (contexts (self w) !! name) eqn:E; [|done]. simpl.
    rewrite lookup_alter_eq, E. by intros [= <-].
  - rewrite bump_context_effect. cbv zeta.
    destruct (contexts (self w) !! name) eqn:E; [|done]. simpl.
    rewrite lookup_alter_eq, E. by intros [= <-].
Qed.

Lemma run_ops_cons op ops w : run_ops (op :: ops) w = run_ops ops (exec op w).2.
Proof. done. Qed.

Lemma run_ops_clock ops w :
  (next_priority (self w) ≤ next_priority (self (run_ops ops w)))%Z.
Proof.
  revert w. induction ops as [|op ops IH]; intros w; [done|].
  rewrite run_ops_cons. etrans; [|apply IH]. apply (exec_prio_step op w).
Qed.

Lemma run_ops_invariant ops w :
  clock_ok (self w) → priorities_unique (self w) →
  clock_ok (self (run_ops ops w)) ∧ priorities_unique (self (run_ops ops w)).
Proof.
  revert w. induction ops as [|op ops IH]; intros w Hok Hu; [done|].
  rewrite run_ops_cons. pose proof (exec_prio_step op w) as Hstep.
  apply IH; eauto using prio_step_clock_ok, prio_step_unique.
Qed.

Lemma assignments_bounds ops w :
  Forall (λ p, next_priority (self w) ≤ p < next_priority (self (run_ops ops w)))%Z
    (assignments ops w).
Proof.
  revert w. induction ops as [|op ops IH]; intros w; [constructor|].
  cbn [assignments]. rewrite run_ops_cons. apply Forall_app. split.
  - destruct (assigned_priority op w) as [p|] eqn:E; [|constructor].
    apply assigned_priority_clock in E as [-> E]. simpl.
    constructor; [|constructor].
    pose proof (run_ops_clock ops (exec op w).2). lia.
  - eapply Forall_impl; [apply IH|]. simpl. intros p [H1 H2].
    split; [|done]. etrans; [apply (exec_prio_step op w)|done].
Qed.

Lemma assignments_sorted ops w : StronglySorted Z.lt (assignments ops w).
Proof.
  revert w. induction ops as [|op ops IH]; intros w; [constructor|].
  cbn [assignments]. apply StronglySorted_app_2; [|by destruct (assigned_priority op w);
    simpl; repeat constructor|apply IH].
  intros p q Hp Hq.
  destruct (assigned_priority op w) as [p'|] eqn:E; simpl in Hp;
    [|by apply elem_of_nil in Hp].
  apply list_elem_of_singleton in Hp as ->.
  apply assigned_priority_clock in E as [-> E].
  pose proof (assignments_bounds ops (exec op w).2) as Hb.
  rewrite Forall_forall in Hb. specialize (Hb q Hq). lia.
Qed.

(** [max(...) + 1] in [from_dict] *)
Lemma foldl_max_ge (l : list Z) x : (x ≤ foldl Z.max x l)%Z.
Proof.
  revert x. induction l as [|y l IH]; intros x; simpl; [done|].
  etrans; [|apply IH]. lia.
Qed.

Lemma foldl_max_bound (l : list Z) x y : y ∈ l → (y ≤ foldl Z.max x l)%Z.
Proof.
  revert x. induction l as [|z l IH]; intros x; [by intros ?%elem_of_nil|].
  intros [->|Hy]%elem_of_cons; simpl; [|by apply IH].
  etrans; [|apply foldl_max_ge]. lia.
Qed.

Lemma foldl_max_elem (l : list Z) x : foldl Z.max x l ∈ x :: l.
Proof.
  revert x. induction l as [|z l IH]; intros x; simpl; [by left|].
  specialize (IH (Z.max x z)).
  apply elem_of_cons in IH as [IH|IH]; [|by do 2 right].
  rewrite IH. destruct (Z.max_spec x z) as [[_ ->]|[_ ->]];
    [right; left|left].
Qed.

Lemma py_max_spec l m :
  py_max l = Ok m → m ∈ l ∧ ∀ y, y ∈ l → (y ≤ m)%Z.
Proof.
  destruct l as [|x l]; [done|]. simpl. intros [= <-]. split.
  - apply foldl_max_elem.
  - intros y [->|Hy]%elem_of_cons;
      [apply foldl_max_ge|by apply foldl_max_bound].
Qed.

Lemma elem_of_priorities (cs : gmap string Data.t) p :
  p ∈ Data.priority <$> (map_to_list cs).*2 ↔
  ∃ k d, cs !! k = Some d ∧ Data.priority d = p.
Proof.
  rewrite list_elem_of_fmap. split.
  - intros (d & -> & Hd). apply list_elem_of_fmap in Hd as ([k d'] & -> & Hkd).
    apply elem_of_map_to_list in Hkd. eauto.
  - intros (k & d & Hk & <-). exists d. split; [done|].
    apply list_elem_of_fmap. exists (k, d). split; [done|].
    by apply elem_of_map_to_list.
Qed.

Lemma from_dict_clock d s : from_dict d = Ok s → clock_is_succ_max s.
Proof.
  destruct d as [cs| | |]; try done. simpl.
  destruct (py_max _) as [m|] eqn:E; [|done]. intros [= <-].
  apply py_max_spec in E as [Hin Hmax]. split; simpl.
  - intros k d Hk. assert (Data.priority d ≤ m)%Z; [|lia].
    apply Hmax, elem_of_priorities. eauto.
  - apply elem_of_priorities in Hin as (k & d & Hk & <-). eauto.
Qed.

Lemma load_from_dict path w s w' :
  load path w = (Ok s, w') →
  w' = w ∧ ∃ d s0, disk w !! os_path_join path ["suite.yaml"] = Some d ∧
                  from_dict d = Ok s0 ∧ s = set_load_path (Some path) s0.
Proof.
  unfold load. unfold_m. destruct (os_path_exists _ _); [|done]. simpl.
  destruct (disk w !! _) as [d|] eqn:E; [|done].
  destruct d as [cs| | |]; try done.
  destruct (from_dict (SuiteYaml cs)) as [s0|] eqn:E'; [|done].
  intros [= <- <-]. split; [done|]. eauto.
Qed.

(** C5: the empty suite satisfies the clock invariant; from any suite that
    does, along every run of operations the priorities assigned by
    [add_context], [set_context_prefix], [set_context_suffix] and
    [bump_context] are strictly increasing in assignment order and exceed
    every priority stored before, and stored priorities stay pairwise
    distinct; and a suite that [load] returns has its clock one past the
    largest stored priority. *)
Theorem priority_clock_strictly_increasing :
  (clock_ok Suite_init ∧ priorities_unique Suite_init) ∧
  (∀ w ops, clock_ok (self w) → priorities_unique (self w) →
     StronglySorted Z.lt (assignments ops w) ∧
     Forall (λ p, ∀ k d, contexts (self w) !! k = Some d →
                         (Data.priority d < p)%Z) (assignments ops w) ∧
     clock_ok (self (run_ops ops w)) ∧
     priorities_unique (self (run_ops ops w))) ∧
  (∀ path w s w', load path w = (Ok s, w') → clock_is_succ_max s).
Proof.
  split; [|split].
  - split; [by intros k d ?|by intros k1 k2 d1 d2 ?].
  - intros w ops Hok Hu. split; [apply assignments_sorted|].
    split; [|by apply run_ops_invariant].
    eapply Forall_impl; [apply assignments_bounds|]. simpl.
    intros p [Hp _] k d Hk. specialize (Hok k d Hk). lia.
  - intros path w s w' (_ & d & s0 & _ & Hd & ->)%load_from_dict.
    by apply from_dict_clock in Hd.
Qed.

Lemma priority_clock_strictly_increasing_witness :
  assignments clock_ops empty_world = [1; 2; 3; 4; 5]%Z ∧
  StronglySorted Z.lt (assignments clock_ops empty_world) ∧
  priorities_unique (self (run_ops clock_ops empty_world)) ∧
  ∃ s w', load ["suites"; "fx"] saved_world = (Ok s, w') ∧
          next_priority s = 3%Z ∧ clock_is_succ_max s.
Proof.
  destruct priority_clock_strictly_increasing as [[Hok Hu] [Hrun Hload]].
  destruct (Hrun empty_world clock_ops Hok Hu) as (Hsorted & _ & _ & Hu').
  split; [vm_compute; reflexivity|]. split; [exact Hsorted|].
  split; [exact Hu'|].
  pose (r := (load ["suites"; "fx"] saved_world).1).
  assert (Hr : r = Ok (ok_or Suite_init r)) by (vm_compute; reflexivity).
  assert (Hp : next_priority (ok_or Suite_init r) = 3%Z)
    by (vm_compute; reflexivity).
  assert (E : load ["suites"; "fx"] saved_world =
              (Ok (ok_or Suite_init r),
               (load ["suites"; "fx"] saved_world).2)).
  { rewrite <- Hr. unfold r. apply surjective_pairing. }
  eexists _, _. split; [exact E|]. split; [exact Hp|].
  exact (Hload _ _ _ _ E).
Defined.

(** ** Accessing a context *)

Lemma set_contexts_id s : set_contexts (contexts s) s = s.
Proof. by destruct s. Qed.

Lemma context_effect name w :
  context name w =
    match ctx_of w name with
    | Some c => (Ok c, materialise name c w)
    | None => (Raise (context_error w name), w)
    end.
Proof.
  unfold context, ctx_of, _context, update_data, ResolvedContext_load,
    materialise, context_error. unfold_m.
  destruct (contexts (self w) !! name) as [d|] eqn:Hd; [|done]. simpl.
  destruct (Data.context d) as [c|] eqn:Hc.
  - f_equal. destruct w as [s fs]. simpl in *. f_equal.
    rewrite alter_id; [apply symmetry, set_contexts_id|].
    intros d' Hd'. rewrite Hd in Hd'. injection Hd' as <-.
    destruct d. simpl in *. by subst.
  - simpl. destruct (load_path (self w)) as [[|l lp]|]; try done. simpl.
    by destruct (disk w !! _) as [[]|].
Qed.

Lemma ctx_of_materialise name c w n :
  ctx_of w name = Some c → ctx_of (materialise name c w) n = ctx_of w n.
Proof.
  unfold ctx_of, materialise. simpl. intros H. rewrite lookup_alter.
  case_decide; subst; [|done].
  destruct (contexts (self w) !! n) as [d|]; [|done]. simpl in *.
  destruct (Data.context d); by simplify_eq.
Qed.

Lemma frame_refl w : frame w w.
Proof. done. Qed.

Lemma frame_trans w1 w2 w3 : frame w1 w2 → frame w2 w3 → frame w1 w3.
Proof.
  intros (? & ? & H1) (? & ? & H2).
  split; [congruence|]. split; [congruence|].
  intros n. by rewrite H2, H1.
Qed.

Lemma frame_materialise name c w :
  ctx_of w name = Some c → frame w (materialise name c w).
Proof.
  intros H. split; [done|]. split; [apply meta_alter_context|].
  intros n. by apply ctx_of_materialise.
Qed.

(** ** Claiming aliases *)

Lemma claim_contexts e s : contexts (claim e s) = contexts s.
Proof. unfold claim. by case_decide. Qed.

Lemma claim_load_path e s : load_path (claim e s) = load_path s.
Proof. unfold claim. by case_decide. Qed.

Lemma claims_contexts es s : contexts (claims es s) = contexts s.
Proof.
  revert s. induction es as [|e es IH]; intros s; [done|].
  simpl. by rewrite IH, claim_contexts.
Qed.

Lemma claims_load_path es s : load_path (claims es s) = load_path s.
Proof.
  revert s. induction es as [|e es IH]; intros s; [done|].
  simpl. by rewrite IH, claim_load_path.
Qed.

Lemma claims_meta es s : meta (claims es s) = meta s.
Proof.
  revert s. induction es as [|e es IH]; intros s; [done|].
  simpl. by rewrite IH, meta_claim.
Qed.

Lemma claims_app es1 es2 s : claims (es1 ++ es2) s = claims es2 (claims es1 s).
Proof. apply foldl_app. Qed.

Lemma frame_claims es w : frame w (mkWorld (claims es (self w)) (disk w)).
Proof.
  split; [done|]. split; [apply claims_meta|].
  intros n. unfold ctx_of. simpl.
  by rewrite claims_contexts, claims_load_path.
Qed.

(** The tables after a claim depend on the tables before it only. *)
Lemma claim_tables e s1 s2 :
  tools s1 = tools s2 → tool_conflicts s1 = tool_conflicts s2 →
  tools (claim e s1) = tools (claim e s2) ∧
  tool_conflicts (claim e s1) = tool_conflicts (claim e s2).
Proof.
  intros Ht Hc. unfold claim. rewrite Ht, Hc. by case_decide.
Qed.

Lemma claims_tables es s1 s2 :
  tools s1 = tools s2 → tool_conflicts s1 = tool_conflicts s2 →
  tools (claims es s1) = tools (claims es s2) ∧
  tool_conflicts (claims es s1) = tool_conflicts (claims es s2).
Proof.
  revert s1 s2. induction es as [|e es IH]; intros s1 s2 Ht Hc; [done|].
  simpl. destruct (claim_tables e s1 s2 Ht Hc). by apply IH.
Qed.

Lemma with_alias_app a es1 es2 :
  with_alias a (es1 ++ es2) = with_alias a es1 ++ with_alias a es2.
Proof. apply filter_app. Qed.

Lemma with_alias_snoc a es e :
  with_alias a (es ++ [e]) =
    if decide (Entry.tool_alias e = a) then with_alias a es ++ [e]
    else with_alias a es.
Proof.
  rewrite with_alias_app. unfold with_alias at 2. rewrite filter_cons.
  case_decide; [done|]. by rewrite filter_nil, app_nil_r.
Qed.

Lemma tables_of_nil : tables_of [] ∅ ∅.
Proof. intros a. by rewrite !lookup_empty. Qed.

Lemma tables_of_claim es e s t c :
  tools s = Some t → tool_conflicts s = Some c → tables_of es t c →
  ∃ t' c', tools (claim e s) = Some t' ∧ tool_conflicts (claim e s) = Some c' ∧
           tables_of (es ++ [e]) t' c'.
Proof.
  intros Ht Hc Htab. unfold claim. rewrite Ht, Hc. simpl.
  destruct (Htab (Entry.tool_alias e)) as [Hhd Htl].
  case_decide as Hin.
  - exists t, (<[Entry.tool_alias e :=
                 default [] (c !! Entry.tool_alias e) ++ [e]]> c).
    split; [done|]. split; [done|]. intros a.
    rewrite with_alias_snoc, lookup_insert.
    destruct (Htab a) as [Hhd' Htl'].
    destruct (decide (Entry.tool_alias e = a)) as [<-|Hne]; [|done].
    apply elem_of_dom in Hin as [x Hx]. rewrite Hx in Hhd.
    destruct (with_alias (Entry.tool_alias e) es) as [|y rest]; [done|].
    simpl in *. split; [done|]. rewrite Htl. f_equal.
    destruct rest; by simpl.
  - exists (<[Entry.tool_alias e := e]> t), c.
    split; [done|]. split; [done|]. intros a.
    rewrite with_alias_snoc, lookup_insert.
    destruct (Htab a) as [Hhd' Htl'].
    destruct (decide (Entry.tool_alias e = a)) as [<-|Hne]; [|done].
    apply not_elem_of_dom in Hin. rewrite Hin in Hhd.
    destruct (with_alias (Entry.tool_alias e) es) as [|y rest]; [|done].
    simpl in *. by rewrite Htl.
Qed.

Lemma tables_of_claims es0 es s t c :
  tools s = Some t → tool_conflicts s = Some c → tables_of es0 t c →
  ∃ t' c', tools (claims es s) = Some t' ∧
           tool_conflicts (claims es s) = Some c' ∧
           tables_of (es0 ++ es) t' c'.
Proof.
  revert es0 s t c. induction es as [|e es IH]; intros es0 s t c Ht Hc Htab.
  - exists t, c. by rewrite app_nil_r.
  - destruct (tables_of_claim es0 e s t c Ht Hc Htab) as (t1 & c1 & ? & ? & ?).
    simpl. destruct (IH (es0 ++ [e]) (claim e s) t1 c1) as (t2 & c2 & ? & ? & ?);
      [done..|].
    exists t2, c2. by rewrite <- app_assoc in *.
Qed.

(** ** The loops of [_update_tools] *)

Lemma world_eta w : mkWorld (self w) (disk w) = w.
Proof. by destruct w. Qed.

Lemma tool_names_loop data variant tool_names w :
  for_ tool_names (λ tool_name,
    if decide (tool_name ∈ Data.hidden_tools data) then ret tt
    else
      let alias := exposed_alias data tool_name in
      let entry := Entry.mk tool_name alias (Data.name data) variant in
      modify_self (claim entry)) w =
  (Ok tt,
   mkWorld
     (claims (tool_name ← tool_names;
              if decide (tool_name ∈ Data.hidden_tools data) then []
              else [Entry.mk tool_name (exposed_alias data tool_name)
                      (Data.name data) variant])
        (self w))
     (disk w)).
Proof.
  revert w. induction tool_names as [|tn tns IH]; intros w.
  - simpl. by rewrite world_eta.
  - cbn [for_ mbind list_bind]. unfold bind at 1.
    destruct (decide (tn ∈ Data.hidden_tools data)).
    + unfold ret at 1. apply IH.
    + unfold modify_self at 1. rewrite IH. simpl. done.
Qed.

Lemma context_tools_loop data context_tools w :
  for_ context_tools (λ '(variant, tool_names),
    for_ tool_names (λ tool_name,
      if decide (tool_name ∈ Data.hidden_tools data) then ret tt
      else
        let alias := exposed_alias data tool_name in
        let entry := Entry.mk tool_name alias (Data.name data) variant in
        modify_self (claim entry))) w =
  (Ok tt,
   mkWorld
     (claims ('(variant, tool_names) ← context_tools;
              tool_name ← tool_names;
              if decide (tool_name ∈ Data.hidden_tools data) then []
              else [Entry.mk tool_name (exposed_alias data tool_name)
                      (Data.name data) variant])
        (self w))
     (disk w)).
Proof.
  revert w. induction context_tools as [|[v tns] cts IH]; intros w.
  - simpl. by rewrite world_eta.
  - cbn [for_ mbind list_bind]. unfold bind at 1.
    rewrite tool_names_loop, IH. simpl. by rewrite claims_app.
Qed.

Lemma update_body_effect data w :
  update_body data w =
    match ctx_of w (Data.name data) with
    | Some c =>
        (Ok tt,
         mkWorld
           (claims (context_entries data c)
              (self (materialise (Data.name data) c w)))
           (disk w))
    | None => (Raise (context_error w (Data.name data)), w)
    end.
Proof.
  unfold update_body. unfold bind at 1. rewrite context_effect.
  destruct (ctx_of w (Data.name data)) as [c|]; [|done].
  by rewrite context_tools_loop.
Qed.

Lemma candidates_of_frame w w' l :
  (∀ n, ctx_of w' n = ctx_of w n) → candidates_of w' l = candidates_of w l.
Proof.
  intros H. induction l as [|d l IH]; [done|]. simpl. by rewrite H, IH.
Qed.

Lemma bind_unfold {A B} (m : M A) (k : A → M B) w :
  bind m k w =
    match m w with
    | (Ok a, w') => k a w'
    | (Raise e, w') => (Raise e, w')
    end.
Proof. done. Qed.

Lemma update_loop l w :
  match candidates_of w l with
  | Some es =>
      ∃ w', for_ l update_body w = (Ok tt, w') ∧ frame w w' ∧
            tools (self w') = tools (claims es (self w)) ∧
            tool_conflicts (self w') = tool_conflicts (claims es (self w))
  | None => ∃ e w', for_ l update_body w = (Raise e, w')
  end.
Proof.
  revert w. induction l as [|d l IH]; intros w.
  - simpl. exists w. by split.
  - cbn [candidates_of for_]. rewrite bind_unfold, update_body_effect.
    destruct (ctx_of w (Data.name d)) as [c|] eqn:Hc; cbn [mbind option_bind].
    2:{ eauto. }
    set (w1 := mkWorld _ _).
    assert (Hf : frame w w1).
    { eapply frame_trans; [by apply frame_materialise|].
      apply (frame_claims _ (materialise (Data.name d) c w)). }
    specialize (IH w1).
    rewrite (candidates_of_frame w w1 l) in IH by apply Hf.
    destruct (candidates_of w l) as [es|]; cbn [mbind option_bind]; [|done].
    destruct IH as (w' & Hrun & Hf' & Ht & Hc').
    exists w'. split; [done|]. split; [by eapply frame_trans|].
    rewrite Ht, Hc', !claims_app. subst w1. cbn [self].
    destruct (claims_tables (context_entries d c)
                (self (materialise (Data.name d) c w)) (self w)); [done..|].
    by apply claims_tables.
Qed.

(** A resolution pass from invalidated tables: when every context can be
    had, the pass claims the candidates in order; otherwise it raises. *)
Lemma update_tools_unfold w :
  tools (self w) = None →
  _update_tools w =
    for_ (reverse (_sorted_contexts (self w))) update_body
      (mkWorld (set_tool_conflicts (Some ∅) (set_tools (Some ∅) (self w)))
         (disk w)).
Proof.
  intros Hnone. unfold _update_tools.
  rewrite bind_unfold. unfold get_self at 1. cbv beta iota. by rewrite Hnone.
Qed.

Lemma update_tools_effect w :
  tools (self w) = None →
  match candidates w with
  | Some es =>
      ∃ w' t c, _update_tools w = (Ok tt, w') ∧ frame w w' ∧
                tools (self w') = Some t ∧ tool_conflicts (self w') = Some c ∧
                tables_of es t c
  | None => ∃ e w', _update_tools w = (Raise e, w')
  end.
Proof.
  intros Hnone. rewrite (update_tools_unfold w Hnone). unfold candidates.
  set (w0 := mkWorld _ _).
  assert (Hf : frame w w0) by (by unfold frame, world_meta, meta, ctx_of).
  pose proof (update_loop (reverse (_sorted_contexts (self w))) w0) as Hloop.
  rewrite (candidates_of_frame w w0) in Hloop by apply Hf.
  destruct (candidates_of w _) as [es|]; [|done].
  destruct Hloop as (w' & Hrun & Hf' & Ht & Hc).
  destruct (tables_of_claims [] es (self w0) ∅ ∅) as (t & c & Ht' & Hc' & Htab);
    [done|done|apply tables_of_nil|].
  exists w', t, c. split; [done|].
  split; [by eapply frame_trans|]. by rewrite Ht, Hc.
Qed.

Lemma update_tools_Ok w w' :
  tools (self w) = None → _update_tools w = (Ok tt, w') →
  ∃ es t c, candidates w = Some es ∧ frame w w' ∧
            tools (self w') = Some t ∧ tool_conflicts (self w') = Some c ∧
            tables_of es t c.
Proof.
  intros Hnone Hrun. pose proof (update_tools_effect w Hnone) as H.
  destruct (candidates w) as [es|].
  - destruct H as (w'' & t & c & Hrun' & ?). rewrite Hrun in Hrun'.
    injection Hrun' as <-. eauto 10.
  - destruct H as (e & w'' & Hrun'). by rewrite Hrun in Hrun'.
Qed.

(** ** The order of the candidates *)

Lemma insert_sorted_perm x l : insert_sorted x l ≡ₚ x :: l.
Proof.
  induction l as [|y l IH]; simpl; [done|].
  case_decide; [done|]. by rewrite IH, Permutation_swap.
Qed.

Lemma sorted_perm l : sorted l ≡ₚ l.
Proof.
  induction l as [|x l IH]; simpl; [done|].
  by rewrite insert_sorted_perm, IH.
Qed.

Lemma insert_sorted_sorted x l :
  StronglySorted data_le l → StronglySorted data_le (insert_sorted x l).
Proof.
  induction l as [|y l IH]; simpl; intros Hl.
  - repeat constructor.
  - apply StronglySorted_cons in Hl as [Hy Hl]. case_decide as Hxy.
    + apply StronglySorted_cons. split; [|by apply StronglySorted_cons].
      constructor; [done|]. eapply Forall_impl; [exact Hy|].
      unfold data_le in *. simpl. intros z ?. lia.
    + apply StronglySorted_cons. split; [|by apply IH].
      rewrite insert_sorted_perm. constructor; [|done].
      unfold data_le in *. lia.
Qed.

Lemma sorted_sorted l : StronglySorted data_le (sorted l).
Proof.
  induction l as [|x l IH]; simpl; [constructor|].
  by apply insert_sorted_sorted.
Qed.

Lemma StronglySorted_reverse_flip {A} (R : relation A) l :
  StronglySorted R l → StronglySorted (flip R) (reverse l).
Proof.
  induction l as [|x l IH]; [constructor|].
  intros [Hx Hl]%StronglySorted_cons. rewrite reverse_cons.
  apply StronglySorted_app_2; [|by apply IH|repeat constructor].
  intros y z Hy ->%list_elem_of_singleton. rewrite elem_of_reverse in Hy.
  rewrite Forall_forall in Hx. unfold flip. by apply Hx.
Qed.



Lemma elem_of_values (cs : gmap string Data.t) d :
  d ∈ (map_to_list cs).*2 ↔ ∃ k, cs !! k = Some d.
Proof.
  rewrite list_elem_of_fmap. split.
  - intros ([k d'] & -> & H%elem_of_map_to_list). eauto.
  - intros [k Hk]. exists (k, d). by rewrite elem_of_map_to_list.
Qed.

Lemma elem_of_sorted_contexts s d :
  d ∈ reverse (_sorted_contexts s) ↔ ∃ k, contexts s !! k = Some d.
Proof.
  unfold _sorted_contexts.
  by rewrite elem_of_reverse, sorted_perm, elem_of_values.
Qed.

Lemma sorted_contexts_descending s :
  StronglySorted (flip data_le) (reverse (_sorted_contexts s)).
Proof. apply StronglySorted_reverse_flip, sorted_sorted. Qed.

(** The candidates of a list of contexts, piece by piece. *)
Lemma candidates_of_app w l1 l2 :
  candidates_of w (l1 ++ l2) =
    es1 ← candidates_of w l1; es2 ← candidates_of w l2; Some (es1 ++ es2).
Proof.
  induction l1 as [|d l1 IH]; simpl.
  - by destruct (candidates_of w l2).
  - destruct (ctx_of w (Data.name d)) as [c|]; [|done]. simpl.
    rewrite IH. destruct (candidates_of w l1) as [es1|]; [|done]. simpl.
    destruct (candidates_of w l2) as [es2|]; [|done]. simpl.
    by rewrite app_assoc.
Qed.

Lemma elem_of_candidates_of w l es e :
  candidates_of w l = Some es →
  e ∈ es ↔ ∃ d c, d ∈ l ∧ ctx_of w (Data.name d) = Some c ∧
                  e ∈ context_entries d c.
Proof.
  revert es. induction l as [|d l IH]; simpl; intros es.
  - intros [= <-]. split; [by intros ?%elem_of_nil|].
    by intros (? & ? & ?%elem_of_nil & _).
  - destruct (ctx_of w (Data.name d)) as [c|] eqn:Hc; [|done]. simpl.
    destruct (candidates_of w l) as [es'|]; [|done]. simpl.
    intros [= <-]. rewrite elem_of_app, (IH es' eq_refl). split.
    + intros [He|(d' & c' & Hd' & Hc' & He)].
      * exists d, c. split; [by left|done].
      * exists d', c'. split; [by right|done].
    + intros (d' & c' & [->|Hd']%elem_of_cons & Hc' & He).
      * left. by simplify_eq.
      * right. eauto.
Qed.

Lemma context_entries_name d c e :
  e ∈ context_entries d c → Entry.context_name e = Data.name d.
Proof.
  unfold context_entries. intros H.
  apply list_elem_of_bind in H as ([v tns] & H & _).
  apply list_elem_of_bind in H as (tn & H & _).
  case_decide; [by apply elem_of_nil in H|].
  by apply list_elem_of_singleton in H as ->.
Qed.

Lemma context_entries_not_hidden d c e :
  e ∈ context_entries d c → Entry.tool_name e ∉ Data.hidden_tools d.
Proof.
  unfold context_entries. intros H.
  apply list_elem_of_bind in H as ([v tns] & H & _).
  apply list_elem_of_bind in H as (tn & H & _).
  case_decide; [by apply elem_of_nil in H|].
  by apply list_elem_of_singleton in H as ->.
Qed.

Lemma context_entries_alias d c e :
  e ∈ context_entries d c →
  Entry.tool_alias e = exposed_alias d (Entry.tool_name e).
Proof.
  unfold context_entries. intros H.
  apply list_elem_of_bind in H as ([v tns] & H & _).
  apply list_elem_of_bind in H as (tn & H & _).
  case_decide; [by apply elem_of_nil in H|].
  by apply list_elem_of_singleton in H as ->.
Qed.

Lemma elem_of_with_alias a es e :
  e ∈ with_alias a es ↔ Entry.tool_alias e = a ∧ e ∈ es.
Proof. unfold with_alias. by rewrite list_elem_of_filter. Qed.



(** ** Winners and conflicts *)

Lemma head_app_nonempty {A} (l1 l2 : list A) x :
  x ∈ l1 → ∃ y, head (l1 ++ l2) = Some y ∧ y ∈ l1 ∧
                tail (l1 ++ l2) = tail l1 ++ l2.
Proof. destruct l1 as [|y l1]; [by intros ?%elem_of_nil|]. exists y. by repeat constructor. Qed.

Lemma recorded_Some l e : e ∈ l → recorded l = Some l.
Proof. by destruct 1. Qed.


(** C1, as stated, fails: in the three-way conflict [nuke] (priority 2) and
    [maya] (priority 1) both expose the alias [maya] and [nuke] has the
    higher priority of the two, yet the winner is neither's: it is the tool
    of [houdini] (priority 3). *)
Lemma three_way_winner_is_houdini :
  exposes three_way_world "nuke" (Entry.mk "maya" "maya" "nuke" "nuke-9") ∧
  exposes three_way_world "maya" (Entry.mk "maya" "maya" "maya" "maya-2015") ∧
  Data.priority <$> contexts (self three_way_world) !! "nuke" = Some 2%Z ∧
  Data.priority <$> contexts (self three_way_world) !! "maya" = Some 1%Z ∧
  winner_of three_way_world "maya"
    = Some (Entry.mk "maya" "maya" "houdini" "houdini-14") ∧
  winner_of three_way_world "maya"
    ≠ Some (Entry.mk "maya" "maya" "nuke" "nuke-9").
Proof.
  assert (Hw : winner_of three_way_world "maya"
               = Some (Entry.mk "maya" "maya" "houdini" "houdini-14"))
    by (vm_compute; reflexivity).
  split; [|split; [|split; [|split; [|split]]]].
  - eexists _, _. split; [vm_compute; reflexivity|].
    split; [vm_compute; reflexivity|]. by_compute.
  - eexists _, _. split; [vm_compute; reflexivity|].
    split; [vm_compute; reflexivity|]. by_compute.
  - vm_compute; reflexivity.
  - vm_compute; reflexivity.
  - exact Hw.
  - rewrite Hw. by_compute.
Qed.

(** C1, amended: when a resolution pass from invalidated tables succeeds
    and contexts [A] and [B] expose the same alias, [A] with the higher
    priority, then the alias has a winner and a conflict list; [B]'s entry is
    in the conflict list and is not the winner, which belongs to another
    context than [B], of priority at least that of [A]; [A]'s entry is the
    winner or one of the conflicts; and the winner is an entry of [A] when
    every other context exposing the alias has a lower priority than [A]. *)
Theorem higher_priority_shadows w w' A B dA dB eA eB :
  names_ok (self w) → tools (self w) = None →
  _update_tools w = (Ok tt, w') →
  contexts (self w) !! A = Some dA → contexts (self w) !! B = Some dB →
  (Data.priority dB < Data.priority dA)%Z →
  exposes w A eA → exposes w B eB →
  Entry.tool_alias eA = Entry.tool_alias eB →
  ∃ t c winner losers,
    tools (self w') = Some t ∧ tool_conflicts (self w') = Some c ∧
    t !! Entry.tool_alias eA = Some winner ∧
    c !! Entry.tool_alias eA = Some losers ∧
    eB ∈ losers ∧ winner ≠ eB ∧ Entry.context_name winner ≠ B ∧
    (eA = winner ∨ eA ∈ losers) ∧
    (∃ dW, contexts (self w) !! Entry.context_name winner = Some dW ∧
           (Data.priority dA ≤ Data.priority dW)%Z) ∧
    ((∀ k d e, k ≠ A → contexts (self w) !! k = Some d → exposes w k e →
               Entry.tool_alias e = Entry.tool_alias eA →
               (Data.priority d < Data.priority dA)%Z) →
     exposes w A winner).
Proof.
  intros Hn Hnone Hrun HA HB Hlt (dA' & cA & HA' & HcA & HeA)
    (dB' & cB & HB' & HcB & HeB) Halias.
  rewrite HA in HA'. injection HA' as <-.
  rewrite HB in HB'. injection HB' as <-.
  destruct (update_tools_Ok w w' Hnone Hrun)
    as (es & t & c & Hes & _ & Ht & Hc & Htab).
  set (a := Entry.tool_alias eA) in *.
  unfold candidates in Hes.
  assert (HinA : dA ∈ reverse (_sorted_contexts (self w)))
    by (apply elem_of_sorted_contexts; eauto).
  assert (HinB : dB ∈ reverse (_sorted_contexts (self w)))
    by (apply elem_of_sorted_contexts; eauto).
  pose proof (sorted_contexts_descending (self w)) as Hsorted.
  apply list_elem_of_split in HinA as (l1 & l2 & Hl).
  rewrite Hl in Hes, HinB, Hsorted.
  assert (Hl1 : ∀ d, d ∈ l1 → (Data.priority dA ≤ Data.priority d)%Z).
  { intros d Hd.
    apply (StronglySorted_app_1_elem_of _ _ _ d dA) in Hsorted;
      [done|done|by left]. }
  assert (HB2 : dB ∈ l2).
  { apply elem_of_app in HinB as [HinB|HinB].
    - specialize (Hl1 dB HinB). lia.
    - apply elem_of_cons in HinB as [->|]; [lia|done]. }
  rewrite candidates_of_app in Hes.
  destruct (candidates_of w l1) as [es1|] eqn:Hes1; [|done].
  cbn [mbind option_bind candidates_of] in Hes.
  rewrite (Hn A dA HA), HcA in Hes. cbn [mbind option_bind] in Hes.
  destruct (candidates_of w l2) as [es2|] eqn:Hes2; [|done].
  cbn [mbind option_bind] in Hes. injection Hes as <-.
  assert (HeB2 : eB ∈ with_alias a es2).
  { apply elem_of_with_alias. split; [done|].
    apply (elem_of_candidates_of w l2 es2 eB Hes2).
    exists dB, cB. by rewrite (Hn B dB HB). }
  assert (HeA1 : eA ∈ with_alias a es1 ++ with_alias a (context_entries dA cA)).
  { apply elem_of_app. right. by apply elem_of_with_alias. }
  destruct (Htab a) as [Hhd Htl].
  rewrite !with_alias_app, app_assoc in Hhd, Htl.
  destruct (head_app_nonempty _ (with_alias a es2) eA HeA1)
    as (winner & Hhead & Hwin & Htail).
  rewrite Hhead in Hhd. rewrite Htail in Htl.
  rewrite (recorded_Some _ eB) in Htl by (apply elem_of_app; by right).
  (* where the winner comes from *)
  assert (Hfrom : ∃ k d c, contexts (self w) !! k = Some d ∧
            ctx_of w k = Some c ∧ winner ∈ context_entries d c ∧
            Entry.tool_alias winner = a ∧ Entry.context_name winner = k ∧
            (Data.priority dA ≤ Data.priority d)%Z ∧
            (k = A ∨ (∃ d', d' ∈ l1 ∧ d = d'))).
  { apply elem_of_app in Hwin as [Hwin|Hwin];
      apply elem_of_with_alias in Hwin as [Hwa Hwin].
    - apply (elem_of_candidates_of w l1 es1 winner Hes1) in Hwin
        as (d & c' & Hd & Hc' & Hwin).
      assert (∃ k, contexts (self w) !! k = Some d) as [k Hk].
      { apply elem_of_sorted_contexts. rewrite Hl. apply elem_of_app. by left. }
      rewrite (Hn k d Hk) in Hc'.
      exists k, d, c'. repeat split; try done.
      + rewrite (context_entries_name _ _ _ Hwin). by apply Hn.
      + by apply Hl1.
      + right. eauto.
    - exists A, dA, cA. repeat split; try done.
      + rewrite (context_entries_name _ _ _ Hwin). by apply Hn.
      + by left. }
  destruct Hfrom as (k & d & c' & Hk & Hc' & Hwe & Hwa & Hwk & Hwp & Hwhere).
  assert (HkB : k ≠ B).
  { intros ->. rewrite HB in Hk. injection Hk as <-. lia. }
  exists t, c, winner, (tail (with_alias a es1 ++ with_alias a (context_entries dA cA))
                        ++ with_alias a es2).
  split; [done|]. split; [done|]. split; [done|]. split; [done|].
  split; [apply elem_of_app; by right|].
  split.
  { intros ->. apply HkB. rewrite <- Hwk.
    rewrite (context_entries_name _ _ _ HeB). by apply Hn. }
  split; [by rewrite Hwk|].
  split.
  { destruct (with_alias a es1 ++ with_alias a (context_entries dA cA))
      as [|x xs]; [by apply elem_of_nil in HeA1|].
    simpl in *. injection Hhead as ->.
    apply elem_of_cons in HeA1 as [->|HeA1]; [by left|].
    right. apply elem_of_app. by left. }
  split; [exists d; by rewrite Hwk|].
  intros Hothers. destruct (decide (k = A)) as [->|HkA].
  - exists d, c'. done.
  - specialize (Hothers k d winner HkA Hk).
    assert (Data.priority d < Data.priority dA)%Z; [|lia].
    apply Hothers; [|done]. by exists d, c'.
Qed.

Lemma names_ok_decide s :
  bool_decide (map_Forall (λ k d, Data.name d = k) (contexts s)) = true →
  names_ok s.
Proof. intros H%bool_decide_eq_true k d Hk. by apply (H k d). Qed.

Lemma run_pair {A} (m : M A) w a : (m w).1 = Ok a → m w = (Ok a, (m w).2).
Proof. destruct (m w) as [r w']. simpl. by intros ->. Qed.

Lemma higher_priority_shadows_witness :
  let eA := Entry.mk "maya" "maya" "nuke" "nuke-9" in
  let eB := Entry.mk "maya" "maya" "maya" "maya-2015" in
  ∃ t c winner losers,
    tools (self resolved_world) = Some t ∧
    tool_conflicts (self resolved_world) = Some c ∧
    t !! "maya" = Some winner ∧ c !! "maya" = Some losers ∧
    eB ∈ losers ∧ winner ≠ eB ∧ Entry.context_name winner ≠ "maya" ∧
    (eA = winner ∨ eA ∈ losers).
Proof.
  intros eA eB.
  destruct (higher_priority_shadows maya_nuke_world resolved_world
              "nuke" "maya"
              (Data.mk "nuke" (Some nuke_context) ∅ ∅ None None None 2)
              (Data.mk "maya" (Some maya_context) ∅ ∅ None None None 1)
              eA eB)
    as (t & c & winner & losers & Ht & Hc & Hw & Hl & H1 & H2 & H3 & H4 & _).
  - apply names_ok_decide. vm_compute. reflexivity.
  - vm_compute. reflexivity.
  - unfold resolved_world.
    refine (run_pair _update_tools maya_nuke_world tt _).
    vm_compute. reflexivity.
  - vm_compute. reflexivity.
  - vm_compute. reflexivity.
  - simpl. lia.
  - eexists _, _. split; [vm_compute; reflexivity|].
    split; [vm_compute; reflexivity|]. by_compute.
  - eexists _, _. split; [vm_compute; reflexivity|].
    split; [vm_compute; reflexivity|]. by_compute.
  - reflexivity.
  - exists t, c, winner, losers. repeat split; assumption.
Defined.


Lemma get_alias_conflicts_memoized a w c :
  is_Some (tools (self w)) → tool_conflicts (self w) = Some c →
  get_alias_conflicts a w = (Ok (c !! a), w).
Proof.
  intros Ht Hc. unfold get_alias_conflicts.
  rewrite bind_unfold, (update_tools_memoized w Ht). cbv beta iota.
  rewrite bind_unfold. unfold get_self at 1. cbv beta iota. by rewrite Hc.
Qed.



(** ** Hidden tools and removed contexts *)

Lemma preserves_ret {A} (I : World → Prop) (a : A) : preserves I (ret a).
Proof. by intros w. Qed.

Lemma preserves_raise {A} (I : World → Prop) e : preserves I (raise (A:=A) e).
Proof. by intros w. Qed.

Lemma preserves_bind {A B} (I : World → Prop) (m : M A) (k : A → M B) :
  preserves I m → (∀ a, preserves I (k a)) → preserves I (bind m k).
Proof.
  intros Hm Hk w Hw. rewrite bind_unfold. specialize (Hm w Hw).
  destruct (m w) as [[a|e] w']; simpl in *; [by apply Hk|done].
Qed.

Lemma preserves_for {A} (I : World → Prop) (l : list A) (body : A → M unit) :
  (∀ a, a ∈ l → preserves I (body a)) → preserves I (for_ l body).
Proof.
  induction l as [|a l IH]; intros Hb; simpl; [apply preserves_ret|].
  apply preserves_bind; [apply Hb; by left|].
  intros _. apply IH. intros b Hb'. apply Hb. by right.
Qed.

Lemma preserves_self_id {A} (I : World → Prop) (m : M A) :
  (∀ w, self (m w).2 = self w) → (∀ w w', self w = self w' → I w → I w') →
  preserves I m.
Proof. intros Hm HI w Hw. eapply HI; [|done]. by rewrite Hm. Qed.

Lemma entry_admissible_meta s s' e :
  meta s = meta s' → entry_admissible s e → entry_admissible s' e.
Proof.
  intros Hm (d & Hd & Hh).
  destruct (meta_lookup_Some s' s (Entry.context_name e) d)
    as (d' & Hd' & Heq); [done|done|].
  apply set_context_None_inv in Heq as (_ & _ & Heq & _).
  exists d'. by rewrite Heq.
Qed.

Lemma suite_ok_frame w w' :
  world_meta w = world_meta w' → tools (self w) = tools (self w') →
  tool_conflicts (self w) = tool_conflicts (self w') →
  suite_ok w → suite_ok w'.
Proof.
  intros Hm Ht Hc [Hn [Hta Hca]]. split; [by eapply names_ok_meta|].
  split.
  - intros t a e Ht' Ha. rewrite <- Ht in Ht'.
    eapply entry_admissible_meta; [exact Hm|]. eauto.
  - intros c a l e Hc' Ha He. rewrite <- Hc in Hc'.
    eapply entry_admissible_meta; [exact Hm|]. eauto.
Qed.

Lemma suite_ok_self w w' : self w = self w' → suite_ok w → suite_ok w'.
Proof. intros H. unfold suite_ok. by rewrite H. Qed.

Lemma suite_ok_flushed lp cs np fs :
  (∀ k d, cs !! k = Some d → Data.name d = k) →
  suite_ok (flushed lp cs np fs).
Proof. intros Hn. split; [done|]. by split. Qed.

Lemma preserves_context name : preserves suite_ok (context name).
Proof.
  intros w Hw. rewrite context_effect.
  destruct (ctx_of w name) as [c|]; [|done]. simpl.
  eapply suite_ok_frame; [| | |exact Hw]; [|done..].
  symmetry. apply meta_alter_context.
Qed.

Lemma entry_admissible_claim e' e s :
  entry_admissible (claim e' s) e ↔ entry_admissible s e.
Proof. unfold entry_admissible. by rewrite claim_contexts. Qed.

Lemma claim_admissible e s :
  entry_admissible s e → tables_admissible s → tables_admissible (claim e s).
Proof.
  intros He [Ht Hc]. split.
  - intros t a e' Ht' Ha. apply entry_admissible_claim.
    revert Ht' Ha. unfold claim. case_decide; simpl.
    + apply Ht.
    + intros [= <-]. rewrite lookup_insert. case_decide; [by intros [= <-]|].
      destruct (tools s) as [t|]; simpl; [by apply Ht|by rewrite lookup_empty].
  - intros c a l e' Hc' Ha He'. apply entry_admissible_claim.
    revert Hc' Ha He'. unfold claim. case_decide; simpl.
    + intros [= <-]. rewrite lookup_insert. case_decide.
      * intros [= <-] [Hin| ->%list_elem_of_singleton]%elem_of_app; [|done].
        destruct (tool_conflicts s) as [c|]; simpl in *;
          [|by rewrite lookup_empty in Hin; apply elem_of_nil in Hin].
        destruct (c !! Entry.tool_alias e) as [l|] eqn:Hl;
          [|by apply elem_of_nil in Hin].
        by eapply Hc.
      * destruct (tool_conflicts s) as [c|]; simpl;
          [by apply Hc|by rewrite lookup_empty].
    + apply Hc.
Qed.

Lemma claims_admissible es s :
  (∀ e, e ∈ es → entry_admissible s e) → tables_admissible s →
  tables_admissible (claims es s).
Proof.
  revert s. induction es as [|e es IH]; intros s Hes Hs; [done|].
  simpl. apply IH.
  - intros e' He'. apply entry_admissible_claim. apply Hes. by right.
  - apply claim_admissible; [|done]. apply Hes. by left.
Qed.

Lemma registered_meta w w' d :
  world_meta w = world_meta w' → registered w d → registered w' d.
Proof.
  intros Hm (k & d1 & Hk & Heq).
  destruct (meta_lookup_Some (self w') (self w) k d1) as (d2 & Hd2 & Heq2);
    [done|done|].
  exists k, d2. split; [done|]. congruence.
Qed.

Lemma keeps_meta_update_body d : keeps world_meta (update_body d).
Proof.
  intros w. rewrite update_body_effect.
  destruct (ctx_of w (Data.name d)) as [c|]; [|done]. simpl.
  unfold world_meta. simpl. rewrite claims_meta. apply meta_alter_context.
Qed.

Lemma update_body_ok d w :
  registered w d → suite_ok w → suite_ok (update_body d w).2.
Proof.
  intros (k & d' & Hk & Heq) Hw. rewrite update_body_effect.
  destruct (ctx_of w (Data.name d)) as [c|] eqn:Hc; [|done]. simpl.
  assert (Hm : suite_ok (materialise (Data.name d) c w)).
  { eapply suite_ok_frame; [| | |exact Hw]; [|done..].
    symmetry. apply meta_alter_context. }
  destruct Hm as [Hn Hta]. split.
  - eapply names_ok_meta; [|exact Hn]. symmetry. apply claims_meta.
  - apply claims_admissible; [|done]. intros e He.
    eapply entry_admissible_meta; [symmetry; apply meta_alter_context|].
    apply set_context_None_inv in Heq as (Hname & _ & Hhid & _).
    destruct Hw as [Hn' _]. exists d'. split.
    + rewrite (context_entries_name _ _ _ He), <- Hname. by rewrite (Hn' k d' Hk).
    + rewrite Hhid. by eapply context_entries_not_hidden.
Qed.

Lemma update_loop_ok l w :
  (∀ d, d ∈ l → registered w d) → suite_ok w →
  suite_ok (for_ l update_body w).2.
Proof.
  revert w. induction l as [|d l IH]; intros w Hl Hw; [done|].
  cbn [for_]. rewrite bind_unfold.
  pose proof (update_body_ok d w (Hl d ltac:(by left)) Hw) as Hw1.
  pose proof (keeps_meta_update_body d w) as Hm.
  destruct (update_body d w) as [[[]|e] w1]; simpl in *; [|done].
  apply IH; [|done]. intros d' Hd'.
  eapply registered_meta; [symmetry; exact Hm|]. apply Hl. by right.
Qed.

Lemma preserves_update_tools : preserves suite_ok _update_tools.
Proof.
  intros w Hw. destruct (tools (self w)) as [t|] eqn:Ht.
  - by rewrite update_tools_memoized.
  - rewrite update_tools_unfold by done. apply update_loop_ok.
    + intros d [k Hk]%elem_of_sorted_contexts. by exists k, d.
    + destruct Hw as [Hn _]. split; [done|]. split; simpl.
      * intros ? a e [= <-]. by rewrite lookup_empty.
      * intros ? a l e [= <-]. by rewrite lookup_empty.
Qed.

Lemma preserves_get_tools : preserves suite_ok get_tools.
Proof.
  unfold get_tools. apply preserves_bind; [apply preserves_update_tools|].
  intros _. apply preserves_bind; [by intros w|]. intros s.
  apply preserves_ret.
Qed.

Lemma preserves_write_file filepath content :
  preserves suite_ok (write_file filepath content).
Proof. by intros w. Qed.

Lemma preserves_save path : preserves suite_ok (save path).
Proof.
  unfold save. apply preserves_bind; [by intros w|]. intros fs.
  apply preserves_bind.
  { destruct (os_path_exists fs path); [|apply preserves_ret].
    destruct (os_path_isfile fs path); [apply preserves_raise|by intros w]. }
  intros _. apply preserves_bind; [by intros w|]. intros s.
  apply preserves_bind; [apply preserves_write_file|]. intros _.
  apply preserves_bind.
  { apply preserves_for. intros n _.
    apply preserves_bind; [apply preserves_context|].
    intros c. apply preserves_write_file. }
  intros _. apply preserves_bind; [apply preserves_get_tools|]. intros t.
  apply preserves_for. intros [a d] _. apply preserves_write_file.
Qed.

Lemma names_ok_alter s name (f : Data.t → Data.t) :
  (∀ d, Data.name (f d) = Data.name d) → names_ok s →
  ∀ k d, alter f name (contexts s) !! k = Some d → Data.name d = k.
Proof.
  intros Hf Hn k d. rewrite lookup_alter. case_decide; subst; [|by apply Hn].
  destruct (contexts s !! k) as [d'|] eqn:Hk; [|done]. simpl.
  intros [= <-]. rewrite Hf. by apply Hn.
Qed.

Lemma preserves_exec op : preserves suite_ok (exec op).
Proof.
  intros w Hw. pose proof Hw as [Hn _]. destruct op; cbn [exec].
  - rewrite add_context_effect. cbv zeta. case_decide; [done|].
    destruct (ResolvedContext.success context0); [|done]. simpl.
    apply suite_ok_flushed. intros k d. rewrite lookup_insert.
    case_decide; [by intros [= <-]|by apply Hn].
  - rewrite remove_context_effect. cbv zeta.
    destruct (contexts (self w) !! name); [|done]. simpl.
    apply suite_ok_flushed. intros k d. rewrite lookup_delete.
    case_decide; [done|by apply Hn].
  - rewrite set_context_prefix_effect. cbv zeta.
    destruct (contexts (self w) !! name); [|done]. simpl.
    apply suite_ok_flushed. by apply names_ok_alter.
  - rewrite set_context_suffix_effect. cbv zeta.
    destruct (contexts (self w) !! name); [|done]. simpl.
    apply suite_ok_flushed. by apply names_ok_alter.
  - rewrite bump_context_effect. cbv zeta.
    destruct (contexts (self w) !! name); [|done]. simpl.
    apply suite_ok_flushed. by apply names_ok_alter.
  - rewrite hide_tool_effect. cbv zeta.
    destruct (contexts (self w) !! context_name); [|done].
    case_decide; [done|]. simpl.
    apply suite_ok_flushed. by apply names_ok_alter.
  - rewrite unhide_tool_effect. cbv zeta.
    destruct (contexts (self w) !! context_name); [|done].
    case_decide; [|done]. simpl.
    apply suite_ok_flushed. by apply names_ok_alter.
  - rewrite alias_tool_effect. cbv zeta.
    destruct (contexts (self w) !! context_name); [|done].
    case_decide; [done|]. simpl.
    apply suite_ok_flushed. by apply names_ok_alter.
  - rewrite dealias_tool_effect. cbv zeta.
    destruct (contexts (self w) !! context_name); [|done].
    case_decide; [|done]. simpl.
    apply suite_ok_flushed. by apply names_ok_alter.
  - revert w Hw Hn. intros w Hw _. revert w Hw.
    apply preserves_bind; [apply preserves_context|].
    intros. apply preserves_ret.
  - revert w Hw Hn. intros w Hw _. revert w Hw.
    apply preserves_bind; [apply preserves_get_tools|].
    intros. apply preserves_ret.
  - revert w Hw Hn. intros w Hw _. revert w Hw.
    apply preserves_bind; [|intros; apply preserves_ret].
    unfold get_conflicting_aliases.
    apply preserves_bind; [apply preserves_update_tools|]. intros _.
    apply preserves_bind; [by intros w|]. intros s.
    destruct (tool_conflicts s); [apply preserves_ret|apply preserves_raise].
  - revert w Hw Hn. intros w Hw _. revert w Hw.
    apply preserves_bind; [|intros; apply preserves_ret].
    unfold get_alias_conflicts.
    apply preserves_bind; [apply preserves_update_tools|]. intros _.
    apply preserves_bind; [by intros w|]. intros s.
    destruct (tool_conflicts s); [apply preserves_ret|apply preserves_raise].
  - by apply preserves_save.
Qed.

Lemma run_ops_ok ops w : suite_ok w → suite_ok (run_ops ops w).
Proof.
  revert w. induction ops as [|op ops IH]; intros w Hw; [done|].
  rewrite run_ops_cons. by apply IH, preserves_exec.
Qed.

Lemma get_tools_result w t w' :
  get_tools w = (Ok t, w') → w' = (_update_tools w).2 ∧ t = tools (self w').
Proof.
  unfold get_tools. rewrite bind_unfold.
  destruct (_update_tools w) as [[[]|e] w1]; [|done].
  by intros [= <- <-].
Qed.

Lemma get_alias_conflicts_result a w r w' :
  get_alias_conflicts a w = (Ok r, w') →
  w' = (_update_tools w).2 ∧
  ∃ c, tool_conflicts (self w') = Some c ∧ r = c !! a.
Proof.
  unfold get_alias_conflicts. rewrite bind_unfold.
  destruct (_update_tools w) as [[[]|e] w1]; [|done].
  rewrite bind_unfold. unfold get_self at 1. cbv beta iota.
  destruct (tool_conflicts (self w1)) as [c|] eqn:Hc; [|done].
  intros [= <- <-]. eauto.
Qed.

(** C7: from a suite whose entries are stored under their names and whose
    memoized tables are admissible (the empty suite is one), after any run
    of operations, whatever they raised, the winning table [get_tools]
    returns and every conflict list [get_alias_conflicts] returns hold only
    entries of contexts that are in the registry, for tools these contexts
    do not hide. *)
Theorem resolve_never_exposes_hidden_or_removed w ops :
  suite_ok w →
  let w1 := run_ops ops w in
  (∀ t w2 a e, get_tools w1 = (Ok (Some t), w2) → t !! a = Some e →
     entry_admissible (self w1) e) ∧
  (∀ a l w2 e, get_alias_conflicts a w1 = (Ok (Some l), w2) → e ∈ l →
     entry_admissible (self w1) e).
Proof.
  intros Hw w1. assert (Hw1 : suite_ok w1) by by apply run_ops_ok.
  pose proof (preserves_update_tools w1 Hw1) as [_ [Ht Hc]].
  pose proof (keeps_meta_update_tools w1) as Hm.
  split.
  - intros t w2 a e [-> Htab]%get_tools_result Ha.
    eapply entry_admissible_meta; [exact Hm|]. symmetry in Htab. eauto.
  - intros a l w2 e (-> & c & Hc' & Hl)%get_alias_conflicts_result He.
    eapply entry_admissible_meta; [exact Hm|]. symmetry in Hl. eauto.
Qed.

Lemma suite_ok_empty : suite_ok empty_world.
Proof.
  split; [intros k d Hk; cbn in Hk; by rewrite lookup_empty in Hk|].
  split; intros; discriminate.
Qed.

Lemma resolve_never_exposes_hidden_or_removed_witness :
  let w1 := run_ops hide_ops empty_world in
  (∀ t w2 a e, get_tools w1 = (Ok (Some t), w2) → t !! a = Some e →
     entry_admissible (self w1) e) ∧
  winner_of w1 "maya" = Some (Entry.mk "maya" "maya" "maya" "maya-2015") ∧
  winner_of w1 "nuke" = None ∧
  conflicts_of w1 "maya" = None.
Proof.
  intros w1.
  destruct (resolve_never_exposes_hidden_or_removed empty_world hide_ops
              suite_ok_empty) as [Hwin _].
  split; [exact Hwin|].
  split; [vm_compute; reflexivity|].
  split; vm_compute; reflexivity.
Defined.

(** ** Lazy materialisation of contexts *)

Lemma preserves_all_live_context name : preserves all_live (context name).
Proof.
  intros w Hw. rewrite context_effect.
  destruct (ctx_of w name) as [c|]; [|done]. simpl.
  intros k d. simpl. rewrite lookup_alter.
  case_decide; subst; [|by apply Hw].
  destruct (contexts (self w) !! k); [|done]. by intros [= <-].
Qed.

Lemma all_live_contexts w w' :
  contexts (self w) = contexts (self w') → all_live w → all_live w'.
Proof. unfold all_live. by intros ->. Qed.

Lemma preserves_all_live_update_body d :
  preserves all_live (update_body d).
Proof.
  intros w Hw. rewrite update_body_effect.
  destruct (ctx_of w (Data.name d)) as [c|] eqn:Hc; [|done]. simpl.
  pose proof (preserves_all_live_context (Data.name d) w Hw) as H.
  rewrite context_effect, Hc in H. simpl in H.
  eapply all_live_contexts; [|exact H]. simpl. by rewrite claims_contexts.
Qed.

Lemma preserves_all_live_update_tools : preserves all_live _update_tools.
Proof.
  intros w Hw. destruct (tools (self w)) as [t|] eqn:Ht.
  - by rewrite update_tools_memoized.
  - rewrite update_tools_unfold by done.
    apply preserves_for; [intros; apply preserves_all_live_update_body|].
    by eapply all_live_contexts; [|exact Hw].
Qed.

Lemma all_live_alter w name (f : Data.t → Data.t) lp np t c fs :
  (∀ d, Data.context (f d) = Data.context d) → all_live w →
  all_live (mkWorld (mkSuite lp (alter f name (contexts (self w))) np t c) fs).
Proof.
  intros Hf Hw k d. simpl. rewrite lookup_alter.
  case_decide; subst; [|by apply Hw].
  destruct (contexts (self w) !! k) as [d'|] eqn:Hk; [|done].
  intros [= <-]. rewrite Hf. by eapply Hw.
Qed.

Lemma preserves_all_live_exec op : preserves all_live (exec op).
Proof.
  intros w Hw. destruct op; cbn [exec].
  - rewrite add_context_effect. cbv zeta. case_decide; [done|].
    destruct (ResolvedContext.success context0); [|done]. simpl.
    intros k d. simpl. rewrite lookup_insert.
    case_decide; [by intros [= <-]|by apply Hw].
  - rewrite remove_context_effect. cbv zeta.
    destruct (contexts (self w) !! name); [|done]. simpl.
    intros k d. simpl. rewrite lookup_delete.
    case_decide; [done|by apply Hw].
  - rewrite set_context_prefix_effect. cbv zeta.
    destruct (contexts (self w) !! name); [|done]. simpl.
    by apply all_live_alter.
  - rewrite set_context_suffix_effect. cbv zeta.
    destruct (contexts (self w) !! name); [|done]. simpl.
    by apply all_live_alter.
  - rewrite bump_context_effect. cbv zeta.
    destruct (contexts (self w) !! name); [|done]. simpl.
    by apply all_live_alter.
  - rewrite hide_tool_effect. cbv zeta.
    destruct (contexts (self w) !! context_name); [|done].
    case_decide; [done|]. simpl. by apply all_live_alter.
  - rewrite unhide_tool_effect. cbv zeta.
    destruct (contexts (self w) !! context_name); [|done].
    case_decide; [|done]. simpl. by apply all_live_alter.
  - rewrite alias_tool_effect. cbv zeta.
    destruct (contexts (self w) !! context_name); [|done].
    case_decide; [done|]. simpl. by apply all_live_alter.
  - rewrite dealias_tool_effect. cbv zeta.
    destruct (contexts (self w) !! context_name); [|done].
    case_decide; [|done]. simpl. by apply all_live_alter.
  - revert w Hw. apply preserves_bind; [apply preserves_all_live_context|].
    intros. apply preserves_ret.
  - revert w Hw. apply preserves_bind; [|intros; apply preserves_ret].
    apply preserves_bind; [apply preserves_all_live_update_tools|].
    intros _. apply preserves_bind; [by intros w|]. intros. apply preserves_ret.
  - revert w Hw. apply preserves_bind; [|intros; apply preserves_ret].
    apply preserves_bind; [apply preserves_all_live_update_tools|].
    intros _. apply preserves_bind; [by intros w|]. intros s.
    destruct (tool_conflicts s); [apply preserves_ret|apply preserves_raise].
  - revert w Hw. apply preserves_bind; [|intros; apply preserves_ret].
    apply preserves_bind; [apply preserves_all_live_update_tools|].
    intros _. apply preserves_bind; [by intros w|]. intros s.
    destruct (tool_conflicts s); [apply preserves_ret|apply preserves_raise].
  - revert w Hw. unfold save.
    apply preserves_bind; [by intros w|]. intros fs.
    apply preserves_bind.
    { destruct (os_path_exists fs path); [|apply preserves_ret].
      destruct (os_path_isfile fs path); [apply preserves_raise|by intros w]. }
    intros _. apply preserves_bind; [by intros w|]. intros s.
    apply preserves_bind; [by intros w|]. intros _.
    apply preserves_bind.
    { apply preserves_for. intros n _.
      apply preserves_bind; [apply preserves_all_live_context|].
      intros c. by intros w. }
    intros _. apply preserves_bind.
    { apply preserves_bind; [apply preserves_all_live_update_tools|].
      intros _. apply preserves_bind; [by intros w|]. intros.
      apply preserves_ret. }
    intros t. apply preserves_for. intros [a d] _. by intros w.
Qed.

Lemma run_ops_all_live ops w : all_live w → all_live (run_ops ops w).
Proof.
  revert w. induction ops as [|op ops IH]; intros w Hw; [done|].
  rewrite run_ops_cons. by apply IH, preserves_all_live_exec.
Qed.

Lemma context_cached name w d c :
  contexts (self w) !! name = Some d → Data.context d = Some c →
  context name w = (Ok c, w).
Proof.
  intros Hd Hc. rewrite context_effect. unfold ctx_of, materialise.
  rewrite Hd. simpl. rewrite Hc. f_equal.
  rewrite alter_id, set_contexts_id; [apply world_eta|].
  intros d' Hd'. rewrite Hd in Hd'. injection Hd' as <-.
  destruct d. simpl in *. by subst.
Qed.

(** C10: [context name] on an entry that holds a live context returns it and
    changes nothing.  An entry without one exists only in a suite that did
    not come from [Suite()] and its mutations alone; for such an entry the
    access fails the assertion when the suite has no load path, and
    otherwise loads the snapshot [contexts/<name>.rxt] under the load path,
    stores it in the entry and returns it, leaving everything else as it
    was.  Once an access has succeeded, every further access returns the
    same context and changes nothing, whatever the disk holds by then. *)
Theorem context_lazy_materialisation name w :
  (∀ d c, contexts (self w) !! name = Some d → Data.context d = Some c →
     context name w = (Ok c, w)) ∧
  (∀ ops fs, all_live (run_ops ops (mkWorld Suite_init fs))) ∧
  (∀ d, contexts (self w) !! name = Some d → Data.context d = None →
     load_path (self w) = None →
     context name w = (Raise AssertionError, w)) ∧
  (∀ d lp c, contexts (self w) !! name = Some d → Data.context d = None →
     load_path (self w) = Some lp → lp ≠ [] →
     disk w !! os_path_join lp ["contexts"; rxt name] = Some (RxtFile c) →
     context name w =
       (Ok c,
        mkWorld
          (set_contexts
             (<[name := Data.set_context (Some c) d]> (contexts (self w)))
             (self w))
          (disk w))) ∧
  (∀ c w', context name w = (Ok c, w') →
     ∀ fs, context name (mkWorld (self w') fs) = (Ok c, mkWorld (self w') fs)).
Proof.
  split; [|split; [|split; [|split]]].
  - intros d c. apply context_cached.
  - intros ops fs. apply run_ops_all_live. intros k d Hk.
    cbn in Hk. by rewrite lookup_empty in Hk.
  - intros d Hd Hc Hlp. rewrite context_effect. unfold ctx_of, context_error.
    rewrite Hd. simpl. by rewrite Hc, Hlp.
  - intros d lp c Hd Hc Hlp Hne Hfile. rewrite context_effect.
    unfold ctx_of, materialise. rewrite Hd. simpl. rewrite Hc, Hlp.
    destruct lp as [|l lp]; [done|]. unfold rxt_path. rewrite Hfile.
    do 3 f_equal. apply map_eq. intros k.
    rewrite lookup_alter, lookup_insert. case_decide; subst; [|done].
    by rewrite Hd.
  - intros c w' Hrun fs. rewrite context_effect in Hrun.
    destruct (ctx_of w name) as [c'|] eqn:Hc; [|done].
    injection Hrun as -> <-.
    assert (Hlive : ∃ d, contexts (self (materialise name c w)) !! name = Some d
                         ∧ Data.context d = Some c).
    { unfold materialise. simpl. rewrite lookup_alter_eq.
      unfold ctx_of in Hc. destruct (contexts (self w) !! name) as [d|]; [|done].
      by exists (Data.set_context (Some c) d). }
    destruct Hlive as (d & Hd & Hdc).
    by apply (context_cached name (mkWorld _ fs) d c).
Qed.

Lemma context_lazy_materialisation_witness :
  context "maya" maya_nuke_world = (Ok maya_context, maya_nuke_world) ∧
  context "maya" detached_world = (Raise AssertionError, detached_world) ∧
  ∃ w', context "maya" loaded_world = (Ok maya_context, w') ∧
        (contexts (self w') !! "maya" ≫= Data.context) = Some maya_context ∧
        ∀ fs, context "maya" (mkWorld (self w') fs)
              = (Ok maya_context, mkWorld (self w') fs).
Proof.
  split; [|split].
  - destruct (context_lazy_materialisation "maya" maya_nuke_world)
      as (Hlive & _).
    apply (Hlive (Data.mk "maya" (Some maya_context) ∅ ∅ None None None 1));
      [vm_compute; reflexivity|reflexivity].
  - destruct (context_lazy_materialisation "maya" detached_world)
      as (_ & _ & Hassert & _).
    apply (Hassert (Data.mk "maya" None ∅ ∅ None None None 1));
      [vm_compute; reflexivity|reflexivity|reflexivity].
  - destruct (context_lazy_materialisation "maya" loaded_world)
      as (_ & _ & _ & Hload & Hagain).
    pose proof (Hload (Data.mk "maya" None ∅ ∅ None None None 1)
                  ["suites"; "fx"] maya_context) as Hrun.
    eexists. split; [apply Hrun|split].
    + vm_compute; reflexivity.
    + reflexivity.
    + vm_compute; reflexivity.
    + discriminate.
    + vm_compute; reflexivity.
    + cbn [self set_contexts contexts]. rewrite lookup_insert_eq. reflexivity.
    + eapply Hagain. apply Hrun.
      * vm_compute; reflexivity.
      * reflexivity.
      * vm_compute; reflexivity.
      * discriminate.
      * vm_compute; reflexivity.
Defined.

(** * Further properties of the registry *)

(** ** Operations on a name that is not registered *)

(** X1: every operation that addresses a context by name, and [context]
    itself, raises [SuiteError] "No such context" when the name is not in
    the suite, and leaves the suite and the disk as they were; in
    particular no priority is drawn. *)
Theorem unknown_context_rejected name w :
  contexts (self w) !! name = None →
  let rejected {A} (m : M A) :=
    m w = (Raise (SuiteError (NoSuchContext name)), w) in
  rejected (remove_context name) ∧
  (∀ prefix, rejected (set_context_prefix name prefix)) ∧
  (∀ suffix, rejected (set_context_suffix name suffix)) ∧
  rejected (bump_context name) ∧
  (∀ tool_name, rejected (hide_tool name tool_name)) ∧
  (∀ tool_name, rejected (unhide_tool name tool_name)) ∧
  (∀ tool_name tool_alias, rejected (alias_tool name tool_name tool_alias)) ∧
  (∀ tool_name, rejected (dealias_tool name tool_name)) ∧
  rejected (context name).
Proof.
  intros Hnone rejected. unfold rejected.
  rewrite remove_context_effect, bump_context_effect, context_effect.
  unfold ctx_of, context_error. cbv zeta. rewrite Hnone.
  repeat split; try done; intros.
  - by rewrite set_context_prefix_effect; cbv zeta; rewrite Hnone.
  - by rewrite set_context_suffix_effect; cbv zeta; rewrite Hnone.
  - by rewrite hide_tool_effect; cbv zeta; rewrite Hnone.
  - by rewrite unhide_tool_effect; cbv zeta; rewrite Hnone.
  - by rewrite alias_tool_effect; cbv zeta; rewrite Hnone.
  - by rewrite dealias_tool_effect; cbv zeta; rewrite Hnone.
Qed.

Lemma unknown_context_rejected_witness :
  bump_context "houdini" maya_nuke_world
    = (Raise (SuiteError (NoSuchContext "houdini")), maya_nuke_world) ∧
  hide_tool "houdini" "maya" maya_nuke_world
    = (Raise (SuiteError (NoSuchContext "houdini")), maya_nuke_world).
Proof.
  destruct (unknown_context_rejected "houdini" maya_nuke_world)
    as (_ & _ & _ & Hbump & Hhide & _).
  - vm_compute. reflexivity.
  - split; [exact Hbump|exact (Hhide "maya")].
Defined.

(** ** Removing a context *)

Lemma run_ops_clock_ok ops : clock_ok (self (run_ops ops empty_world)).
Proof.
  apply run_ops_invariant; [by intros k d ?|by intros k1 k2 d1 d2 ?].
Qed.

(** X2: [remove_context] of a registered name deletes that entry and no
    other, invalidates the tables and leaves the clock where it was: a
    second removal is rejected, and a context added again under the name
    gets a priority above the one the removed entry had (in a suite whose
    stored priorities are below its clock). *)
Theorem remove_context_forgets name w d :
  contexts (self w) !! name = Some d → clock_ok (self w) →
  ∃ w', remove_context name w = (Ok tt, w') ∧
    contexts (self w') = delete name (contexts (self w)) ∧
    next_priority (self w') = next_priority (self w) ∧
    tools (self w') = None ∧ tool_conflicts (self w') = None ∧
    load_path (self w') = load_path (self w) ∧ disk w' = disk w ∧
    remove_context name w' = (Raise (SuiteError (NoSuchContext name)), w') ∧
    ∀ c descr, ResolvedContext.success c = true →
      ∃ w'' d', add_context name c descr w' = (Ok tt, w'') ∧
                contexts (self w'') !! name = Some d' ∧
                (Data.priority d < Data.priority d')%Z.
Proof.
  intros Hd Hok. rewrite remove_context_effect. cbv zeta. rewrite Hd.
  eexists. split; [done|]. cbn [self disk flushed contexts next_priority tools
    tool_conflicts load_path].
  repeat (split; [done|]). split.
  - rewrite remove_context_effect. cbv zeta. cbn [self flushed contexts].
    by rewrite lookup_delete_eq.
  - intros c descr Hc. rewrite add_context_effect. cbv zeta.
    cbn [self flushed contexts next_priority load_path disk].
    rewrite decide_False, Hc.
    2:{ rewrite dom_delete_L. set_solver. }
    eexists _, _. split; [done|]. cbn [self flushed contexts].
    rewrite lookup_insert_eq. split; [done|]. simpl. by apply (Hok name d).
Qed.

Lemma remove_context_forgets_witness :
  ∃ w', remove_context "maya" maya_nuke_world = (Ok tt, w') ∧
        contexts (self w') !! "maya" = None ∧
        next_priority (self w') = 3%Z ∧
        remove_context "maya" w'
          = (Raise (SuiteError (NoSuchContext "maya")), w').
Proof.
  destruct (remove_context_forgets "maya" maya_nuke_world
              (Data.mk "maya" (Some maya_context) ∅ ∅ None None None 1))
    as (w' & Hrun & Hcs & Hclock & _ & _ & _ & _ & Hagain & _).
  - vm_compute. reflexivity.
  - exact (run_ops_clock_ok _).
  - exists w'. split; [exact Hrun|]. split; [|split; [|exact Hagain]].
    + rewrite Hcs. apply lookup_delete_eq.
    + rewrite Hclock. vm_compute. reflexivity.
Defined.

(** ** Hiding and aliasing, there and back *)

Lemma data_eta d :
  Data.mk (Data.name d) (Data.context d) (Data.tool_aliases d)
    (Data.hidden_tools d) (Data.description d) (Data.prefix d)
    (Data.suffix d) (Data.priority d) = d.
Proof. by destruct d. Qed.

Lemma alter_alter_restore (cs : gmap string Data.t) name d
    (f g : Data.t → Data.t) :
  cs !! name = Some d → g (f d) = d → alter g name (alter f name cs) = cs.
Proof.
  intros Hd Hgf. rewrite alter_alter_eq. apply map_eq. intros k.
  rewrite lookup_alter. case_decide; subst; [|done].
  rewrite Hd. simpl. by rewrite Hgf.
Qed.

(** X3: on a tool that is not hidden, [unhide_tool] changes nothing;
    [hide_tool] hides it, a second [hide_tool] changes nothing more, and
    [unhide_tool] then gives back the registry as it was before, with the
    memoized tables invalidated. *)
Theorem hide_unhide_restores context_name tool_name w d :
  contexts (self w) !! context_name = Some d →
  tool_name ∉ Data.hidden_tools d →
  unhide_tool context_name tool_name w = (Ok tt, w) ∧
  ∃ w1, hide_tool context_name tool_name w = (Ok tt, w1) ∧
    (∃ d1, contexts (self w1) !! context_name = Some d1 ∧
           tool_name ∈ Data.hidden_tools d1) ∧
    tools (self w1) = None ∧
    hide_tool context_name tool_name w1 = (Ok tt, w1) ∧
    unhide_tool context_name tool_name w1 =
      (Ok tt, flushed (load_path (self w)) (contexts (self w))
                (next_priority (self w)) (disk w)).
Proof.
  intros Hd Hnin. split.
  { rewrite unhide_tool_effect. cbv zeta. by rewrite Hd, decide_False. }
  rewrite hide_tool_effect. cbv zeta. rewrite Hd, decide_False by done.
  eexists. split; [done|].
  assert (Hd1 : alter (Data.set_hidden_tools ({[tool_name]} ∪ Data.hidden_tools d))
                  context_name (contexts (self w)) !! context_name
                = Some (Data.set_hidden_tools
                          ({[tool_name]} ∪ Data.hidden_tools d) d)).
  { by rewrite lookup_alter_eq, Hd. }
  split; [|split; [done|split]].
  - eexists. split; [exact Hd1|]. simpl. set_solver.
  - rewrite hide_tool_effect. cbv zeta. cbn [self flushed contexts].
    rewrite Hd1. rewrite decide_True; [done|]. simpl. set_solver.
  - rewrite unhide_tool_effect. cbv zeta.
    cbn [self flushed contexts load_path next_priority disk].
    rewrite Hd1. rewrite decide_True by (simpl; set_solver).
    unfold flushed. do 3 f_equal.
    apply (alter_alter_restore _ _ d); [done|].
    unfold Data.set_hidden_tools. simpl.
    replace (({[tool_name]} ∪ Data.hidden_tools d) ∖ {[tool_name]})
      with (Data.hidden_tools d) by set_solver.
    apply data_eta.
Qed.

Lemma hide_unhide_restores_witness :
  ∃ w1, hide_tool "nuke" "maya" maya_nuke_world = (Ok tt, w1) ∧
        unhide_tool "nuke" "maya" w1 =
          (Ok tt, flushed (load_path (self maya_nuke_world))
                    (contexts (self maya_nuke_world))
                    (next_priority (self maya_nuke_world))
                    (disk maya_nuke_world)).
Proof.
  destruct (hide_unhide_restores "nuke" "maya" maya_nuke_world
              (Data.mk "nuke" (Some nuke_context) ∅ ∅ None None None 2))
    as (_ & w1 & Hhide & _ & _ & _ & Hback).
  - vm_compute. reflexivity.
  - simpl. apply not_elem_of_empty.
  - exists w1. split; [exact Hhide|exact Hback].
Defined.

(** X4: on a tool without an alias, [alias_tool] followed by
    [dealias_tool] gives back the registry as it was, with the memoized
    tables invalidated; in between, the alias cannot be changed by a second
    [alias_tool]. *)
Theorem alias_dealias_restores context_name tool_name tool_alias w d :
  contexts (self w) !! context_name = Some d →
  tool_name ∉ dom (Data.tool_aliases d) →
  ∃ w1, alias_tool context_name tool_name tool_alias w = (Ok tt, w1) ∧
    alias_of w1 context_name tool_name = Some tool_alias ∧
    (∀ other, alias_tool context_name tool_name other w1 = (Ok tt, w1)) ∧
    dealias_tool context_name tool_name w1 =
      (Ok tt, flushed (load_path (self w)) (contexts (self w))
                (next_priority (self w)) (disk w)).
Proof.
  intros Hd Hnin.
  rewrite alias_tool_effect. cbv zeta. rewrite Hd, decide_False by done.
  eexists. split; [done|].
  assert (Hd1 : alter (Data.set_tool_aliases
                         (<[tool_name := tool_alias]> (Data.tool_aliases d)))
                  context_name (contexts (self w)) !! context_name
                = Some (Data.set_tool_aliases
                          (<[tool_name := tool_alias]> (Data.tool_aliases d)) d)).
  { by rewrite lookup_alter_eq, Hd. }
  assert (Hin : tool_name ∈ dom (<[tool_name := tool_alias]> (Data.tool_aliases d))).
  { rewrite dom_insert_L. set_solver. }
  split; [|split].
  - unfold alias_of. cbn [self flushed contexts]. rewrite Hd1. simpl.
    by rewrite lookup_insert_eq.
  - intros other. rewrite alias_tool_effect. cbv zeta.
    cbn [self flushed contexts]. rewrite Hd1. by rewrite decide_True.
  - rewrite dealias_tool_effect. cbv zeta.
    cbn [self flushed contexts load_path next_priority disk].
    rewrite Hd1. rewrite decide_True by done.
    unfold flushed. do 3 f_equal.
    apply (alter_alter_restore _ _ d); [done|].
    unfold Data.set_tool_aliases. simpl.
    rewrite delete_insert_eq, delete_id by (by apply not_elem_of_dom).
    apply data_eta.
Qed.

Lemma alias_dealias_restores_witness :
  ∃ w1, alias_tool "nuke" "maya" "nmaya" maya_nuke_world = (Ok tt, w1) ∧
        alias_of w1 "nuke" "maya" = Some "nmaya" ∧
        dealias_tool "nuke" "maya" w1 =
          (Ok tt, flushed (load_path (self maya_nuke_world))
                    (contexts (self maya_nuke_world))
                    (next_priority (self maya_nuke_world))
                    (disk maya_nuke_world)).
Proof.
  destruct (alias_dealias_restores "nuke" "maya" "nmaya" maya_nuke_world
              (Data.mk "nuke" (Some nuke_context) ∅ ∅ None None None 2))
    as (w1 & Halias & Hof & _ & Hback).
  - vm_compute. reflexivity.
  - simpl. rewrite dom_empty_L. apply not_elem_of_empty.
  - exists w1. split; [exact Halias|]. split; [exact Hof|exact Hback].
Defined.

(** * Further properties of resolution *)

(** ** The context with the highest priority *)

Lemma top_priority_wins w w' A dA e :
  names_ok (self w) → tools (self w) = None →
  _update_tools w = (Ok tt, w') →
  contexts (self w) !! A = Some dA →
  (∀ k d, k ≠ A → contexts (self w) !! k = Some d →
          (Data.priority d < Data.priority dA)%Z) →
  exposes w A e →
  ∃ t winner, tools (self w') = Some t ∧
    t !! Entry.tool_alias e = Some winner ∧
    Entry.context_name winner = A ∧ exposes w A winner.
Proof.
  intros Hn Hnone Hrun HA Htop (dA' & cA & HA' & HcA & He).
  rewrite HA in HA'. injection HA' as <-.
  destruct (update_tools_Ok w w' Hnone Hrun)
    as (es & t & c & Hes & _ & Ht & _ & Htab).
  set (a := Entry.tool_alias e) in *.
  assert (Hin : e ∈ with_alias a es).
  { apply elem_of_with_alias. split; [done|].
    apply (elem_of_candidates_of w _ es e Hes). exists dA, cA.
    split; [apply elem_of_sorted_contexts; eauto|].
    by rewrite (Hn A dA HA). }
  destruct (Htab a) as [Hhd _].
  destruct (with_alias a es) as [|winner rest] eqn:Hwa;
    [by apply elem_of_nil in Hin|].
  assert (Hwin : winner ∈ with_alias a es) by (rewrite Hwa; by left).
  apply elem_of_with_alias in Hwin as [Hwa' Hwin].
  pose proof Hes as Hes'. unfold candidates in Hes'.
  pose proof (sorted_contexts_descending (self w)) as Hsorted.
  assert (HinA : dA ∈ reverse (_sorted_contexts (self w)))
    by (apply elem_of_sorted_contexts; eauto).
  apply list_elem_of_split in HinA as (l1 & l2 & Hl).
  rewrite Hl in Hes', Hsorted.
  assert (Hl1 : ∀ d, d ∈ l1 → d = dA).
  { intros d Hd.
    assert (∃ k, contexts (self w) !! k = Some d) as [k Hk].
    { apply elem_of_sorted_contexts. rewrite Hl. apply elem_of_app. by left. }
    destruct (decide (k = A)) as [->|Hne]; [congruence|].
    specialize (Htop k d Hne Hk).
    apply (StronglySorted_app_1_elem_of _ _ _ d dA) in Hsorted;
      [|done|by left].
    unfold flip, data_le in Hsorted. lia. }
  (* the first candidate of the alias comes from [dA] *)
  assert (Hfirst : ∀ x, head (with_alias a es) = Some x →
                        x ∈ context_entries dA cA).
  { rewrite candidates_of_app in Hes'.
    destruct (candidates_of w l1) as [es1|] eqn:Hes1; [|done].
    cbn [mbind option_bind candidates_of] in Hes'.
    rewrite (Hn A dA HA), HcA in Hes'. cbn [mbind option_bind] in Hes'.
    destruct (candidates_of w l2) as [es2|] eqn:Hes2; [|done].
    cbn [mbind option_bind] in Hes'. injection Hes' as <-.
    assert (He1 : e ∈ with_alias a es1 ++ with_alias a (context_entries dA cA)).
    { apply elem_of_app. right. by apply elem_of_with_alias. }
    intros x Hx. rewrite !with_alias_app, app_assoc in Hx.
    destruct (head_app_nonempty _ (with_alias a es2) e He1)
      as (y & Hy & Hyin & _).
    rewrite Hy in Hx. injection Hx as <-.
    apply elem_of_app in Hyin as [Hyin|Hyin];
      apply elem_of_with_alias in Hyin as [_ Hyin]; [|done].
    apply (elem_of_candidates_of w l1 es1 y Hes1) in Hyin
      as (d & c' & Hd & Hc' & Hyin).
    rewrite (Hl1 d Hd) in Hc', Hyin. rewrite (Hn A dA HA), HcA in Hc'.
    by injection Hc' as <-. }
  specialize (Hfirst winner). rewrite Hwa in Hfirst.
  specialize (Hfirst eq_refl).
  exists t, winner. split; [done|]. split; [by rewrite Hhd|].
  split; [|by exists dA, cA].
  rewrite (context_entries_name _ _ _ Hfirst). by apply Hn.
Qed.

Lemma drawn_priority_is_top op w p :
  names_ok (self w) → clock_ok (self w) →
  assigned_priority op w = Some p →
  let w1 := (exec op w).2 in
  names_ok (self w1) ∧ tools (self w1) = None ∧
  ∃ d, contexts (self w1) !! target op = Some d ∧ Data.priority d = p ∧
       ∀ k d', k ≠ target op → contexts (self w1) !! k = Some d' →
               (Data.priority d' < p)%Z.
Proof.
  intros Hn Hok Hp. pose proof (assigned_priority_clock op w p Hp) as [-> _].
  revert Hp. unfold assigned_priority.
  destruct op; try (by destruct (exec _ w) as [[[]|] ?]); cbn [exec target].
  - rewrite add_context_effect. cbv zeta. case_decide; [done|].
    destruct (ResolvedContext.success context0); [|done]. intros _.
    cbn [snd self flushed contexts tools]. split; [|split; [done|]].
    + intros k d. cbn [contexts]. rewrite lookup_insert.
      case_decide; [by intros [= <-]|by apply Hn].
    + eexists. rewrite lookup_insert_eq. split; [done|]. split; [done|].
      intros k d' Hk. rewrite lookup_insert_ne by done. apply Hok.
  - rewrite set_context_prefix_effect. cbv zeta.
    destruct (contexts (self w) !! name) as [d|] eqn:Hd; [|done]. intros _.
    cbn [snd self flushed contexts tools]. split; [|split; [done|]].
    + intros k d0. cbn [contexts]. by apply names_ok_alter.
    + eexists. rewrite lookup_alter_eq, Hd. split; [done|]. split; [done|].
      intros k d' Hk. rewrite lookup_alter_ne by done. apply Hok.
  - rewrite set_context_suffix_effect. cbv zeta.
    destruct (contexts (self w) !! name) as [d|] eqn:Hd; [|done]. intros _.
    cbn [snd self flushed contexts tools]. split; [|split; [done|]].
    + intros k d0. cbn [contexts]. by apply names_ok_alter.
    + eexists. rewrite lookup_alter_eq, Hd. split; [done|]. split; [done|].
      intros k d' Hk. rewrite lookup_alter_ne by done. apply Hok.
  - rewrite bump_context_effect. cbv zeta.
    destruct (contexts (self w) !! name) as [d|] eqn:Hd; [|done]. intros _.
    cbn [snd self flushed contexts tools]. split; [|split; [done|]].
    + intros k d0. cbn [contexts]. by apply names_ok_alter.
    + eexists. rewrite lookup_alter_eq, Hd. split; [done|]. split; [done|].
      intros k d' Hk. rewrite lookup_alter_ne by done. apply Hok.
Qed.

(** X5: the context that was last added, prefixed, suffixed or bumped
    overrides all others: once [add_context], [set_context_prefix],
    [set_context_suffix] or [bump_context] has succeeded on a suite whose
    entries are stored under their names with priorities below the clock,
    the next successful resolution gives every alias that context exposes
    to one of its own entries. *)
Theorem latest_context_overrides op w p :
  names_ok (self w) → clock_ok (self w) →
  assigned_priority op w = Some p →
  ∀ w2 e, _update_tools (exec op w).2 = (Ok tt, w2) →
    exposes (exec op w).2 (target op) e →
    ∃ t winner, tools (self w2) = Some t ∧
      t !! Entry.tool_alias e = Some winner ∧
      Entry.context_name winner = target op ∧
      exposes (exec op w).2 (target op) winner.
Proof.
  intros Hn Hok Hp w2 e Hrun He.
  destruct (drawn_priority_is_top op w p Hn Hok Hp)
    as (Hn1 & Hnone & d & Hd & <- & Htop).
  by apply (top_priority_wins _ w2 (target op) d e).
Qed.

Lemma latest_context_overrides_witness :
  let w1 := (exec (BumpContext "maya") maya_nuke_world).2 in
  ∃ t winner, tools (self (_update_tools w1).2) = Some t ∧
    t !! "maya" = Some winner ∧ Entry.context_name winner = "maya".
Proof.
  intros w1.
  destruct (latest_context_overrides (BumpContext "maya") maya_nuke_world 3%Z)
    with (w2 := (_update_tools w1).2)
         (e := Entry.mk "maya" "maya" "maya" "maya-2015")
    as (t & winner & Ht & Hw & Hc & _).
  - apply names_ok_decide. vm_compute. reflexivity.
  - exact (run_ops_clock_ok _).
  - vm_compute. reflexivity.
  - refine (run_pair _update_tools w1 tt _). vm_compute. reflexivity.
  - eexists _, _. split; [vm_compute; reflexivity|].
    split; [vm_compute; reflexivity|]. by_compute.
  - exists t, winner. split; [exact Ht|]. split; [exact Hw|exact Hc].
Defined.

(** ** What the tables hold *)

Lemma exposes_candidates w es e :
  names_ok (self w) → candidates w = Some es →
  e ∈ es ↔ ∃ k, exposes w k e.
Proof.
  intros Hn Hes. unfold candidates in Hes.
  rewrite (elem_of_candidates_of w _ es e Hes). split.
  - intros (d & c & [k Hk]%elem_of_sorted_contexts & Hc & He).
    rewrite (Hn k d Hk) in Hc. by exists k, d, c.
  - intros (k & d & c & Hk & Hc & He). exists d, c.
    split; [apply elem_of_sorted_contexts; eauto|].
    by rewrite (Hn k d Hk).
Qed.

(** X6: after a successful resolution pass the two tables account for
    every exposed tool exactly as the registry describes it.  A winner is
    stored under its own alias and is an entry some registered context
    exposes: a tool that context lists and does not hide, under its
    explicit alias or else under prefix + name + suffix.  Every alias with
    conflicts has a winner; every exposed entry is the winner of its alias
    or one of its conflicts; and an alias has no winner exactly when no
    context exposes it. *)
Theorem tables_account_for_exposed_tools w w' :
  names_ok (self w) → tools (self w) = None →
  _update_tools w = (Ok tt, w') →
  ∃ t c, tools (self w') = Some t ∧ tool_conflicts (self w') = Some c ∧
    (∀ a e, t !! a = Some e →
       Entry.tool_alias e = a ∧
       ∃ d, contexts (self w) !! Entry.context_name e = Some d ∧
            exposes w (Entry.context_name e) e ∧
            (Entry.tool_name e ∉ Data.hidden_tools d) ∧
            a = exposed_alias d (Entry.tool_name e)) ∧
    dom c ⊆ dom t ∧
    (∀ k e, exposes w k e →
       t !! Entry.tool_alias e = Some e ∨
       ∃ l, c !! Entry.tool_alias e = Some l ∧ e ∈ l) ∧
    (∀ a, t !! a = None ↔ (∀ k e, exposes w k e → Entry.tool_alias e ≠ a)).
Proof.
  intros Hn Hnone Hrun.
  destruct (update_tools_Ok w w' Hnone Hrun)
    as (es & t & c & Hes & _ & Ht & Hc & Htab).
  exists t, c. split; [done|]. split; [done|].
  split; [|split; [|split]].
  - intros a e Ha. destruct (Htab a) as [Hhd _]. rewrite Ha in Hhd.
    assert (He : e ∈ with_alias a es).
    { destruct (with_alias a es); simplify_eq/=. by left. }
    apply elem_of_with_alias in He as [Hal He]. split; [done|].
    apply (exposes_candidates w es e Hn Hes) in He
      as (k & d & c' & Hk & Hc' & He).
    pose proof (context_entries_name _ _ _ He) as Hname.
    rewrite (Hn k d Hk) in Hname. subst k.
    exists d. split; [done|]. split; [by exists d, c'|].
    split; [by eapply context_entries_not_hidden|].
    rewrite <- Hal. by eapply context_entries_alias.
  - intros a [l Hl]%elem_of_dom. apply elem_of_dom.
    destruct (Htab a) as [Hhd Htl]. rewrite Hl in Htl. rewrite Hhd.
    destruct (with_alias a es) as [|x [|y rest]]; simplify_eq/=. eauto.
  - intros k e He.
    assert (He' : e ∈ with_alias (Entry.tool_alias e) es).
    { apply elem_of_with_alias. split; [done|].
      apply (exposes_candidates w es e Hn Hes). eauto. }
    destruct (Htab (Entry.tool_alias e)) as [Hhd Htl].
    destruct (with_alias (Entry.tool_alias e) es) as [|x rest];
      [by apply elem_of_nil in He'|].
    simpl in *. apply elem_of_cons in He' as [->|He']; [by left|].
    right. exists rest. split; [|done].
    rewrite Htl. by eapply recorded_Some.
  - intros a. destruct (Htab a) as [Hhd _]. rewrite Hhd. split.
    + intros Hnil k e He Ha.
      assert (He' : e ∈ with_alias a es).
      { apply elem_of_with_alias. split; [done|].
        apply (exposes_candidates w es e Hn Hes). eauto. }
      destruct (with_alias a es); [by apply elem_of_nil in He'|done].
    + intros Hno. destruct (with_alias a es) as [|x rest] eqn:Hwa; [done|].
      assert (Hx : x ∈ with_alias a es) by (rewrite Hwa; by left).
      apply elem_of_with_alias in Hx as [Ha Hx].
      apply (exposes_candidates w es x Hn Hes) in Hx as [k Hx].
      by destruct (Hno k x Hx).
Qed.

Lemma tables_account_for_exposed_tools_witness :
  ∃ t c, tools (self resolved_world) = Some t ∧
         tool_conflicts (self resolved_world) = Some c ∧
         dom c ⊆ dom t ∧
         (∀ a, t !! a = None ↔
               (∀ k e, exposes maya_nuke_world k e → Entry.tool_alias e ≠ a)).
Proof.
  destruct (tables_account_for_exposed_tools maya_nuke_world resolved_world)
    as (t & c & Ht & Hc & _ & Hdom & _ & Hnone).
  - apply names_ok_decide. vm_compute. reflexivity.
  - vm_compute. reflexivity.
  - unfold resolved_world.
    refine (run_pair _update_tools maya_nuke_world tt _).
    vm_compute. reflexivity.
  - exists t, c. split; [exact Ht|]. split; [exact Hc|].
    split; [exact Hdom|exact Hnone].
Defined.

(** ** Memoization *)

Lemma claim_keeps_tools e s : is_Some (tools s) → is_Some (tools (claim e s)).
Proof. intros Hs. unfold claim. case_decide; [done|]. by eexists. Qed.

Lemma claims_keep_tools es s :
  is_Some (tools s) → is_Some (tools (claims es s)).
Proof.
  revert s. induction es as [|e es IH]; intros s Hs; [done|].
  simpl. by apply IH, claim_keeps_tools.
Qed.

Lemma claim_keeps_conflicts e s :
  is_Some (tool_conflicts s) → is_Some (tool_conflicts (claim e s)).
Proof. intros Hs. unfold claim. case_decide; [by eexists|done]. Qed.

Lemma claims_keep_conflicts es s :
  is_Some (tool_conflicts s) → is_Some (tool_conflicts (claims es s)).
Proof.
  revert s. induction es as [|e es IH]; intros s Hs; [done|].
  simpl. by apply IH, claim_keeps_conflicts.
Qed.

Lemma preserves_tables_set_update_body d :
  preserves (λ w, is_Some (tools (self w)) ∧ is_Some (tool_conflicts (self w)))
    (update_body d).
Proof.
  intros w [Ht Hc]. rewrite update_body_effect.
  destruct (ctx_of w (Data.name d)) as [c|]; [|done]. simpl.
  split; [by apply claims_keep_tools|by apply claims_keep_conflicts].
Qed.

(** Whatever a resolution pass does, it leaves tables behind. *)
Lemma tables_set_after_update w :
  is_Some (tool_conflicts (self w)) ∨ tools (self w) = None →
  is_Some (tools (self (_update_tools w).2)) ∧
  is_Some (tool_conflicts (self (_update_tools w).2)).
Proof.
  intros Hw. destruct (tools (self w)) as [t|] eqn:Ht.
  - rewrite update_tools_memoized by (by rewrite Ht). cbn [snd].
    split; [by rewrite Ht|]. by destruct Hw.
  - rewrite update_tools_unfold by done.
    apply (preserves_for _ _ _ (λ d _, preserves_tables_set_update_body d)).
    by split.
Qed.

Lemma tools_set_after_update w : is_Some (tools (self (_update_tools w).2)).
Proof.
  destruct (tools (self w)) as [t|] eqn:Ht.
  - rewrite update_tools_memoized by (by rewrite Ht). cbn [snd].
    by rewrite Ht.
  - by destruct (tables_set_after_update w); [by right|].
Qed.

Lemma get_tools_memoized w :
  is_Some (tools (self w)) → get_tools w = (Ok (tools (self w)), w).
Proof.
  intros Ht. unfold get_tools.
  by rewrite bind_unfold, (update_tools_memoized w Ht).
Qed.

Lemma get_conflicting_aliases_memoized w c :
  is_Some (tools (self w)) → tool_conflicts (self w) = Some c →
  get_conflicting_aliases w = (Ok (map_to_list c).*1, w).
Proof.
  intros Ht Hc. unfold get_conflicting_aliases.
  rewrite bind_unfold, (update_tools_memoized w Ht). cbv beta iota.
  rewrite bind_unfold. unfold get_self at 1. cbv beta iota. by rewrite Hc.
Qed.

(** X7: resolution is memoized.  Once [get_tools] has returned, a further
    [get_tools], [get_alias_conflicts] or [get_conflicting_aliases] answers
    from the stored tables: it returns the same table, changes nothing in
    the suite and does not depend on what the disk holds by then. *)
Theorem resolution_is_memoized w t w' :
  get_tools w = (Ok t, w') →
  ∀ fs,
    let w'' := mkWorld (self w') fs in
    get_tools w'' = (Ok t, w'') ∧
    (tools (self w) = None →
     ∃ c, tool_conflicts (self w') = Some c ∧
          (∀ a, get_alias_conflicts a w'' = (Ok (c !! a), w'')) ∧
          get_conflicting_aliases w'' = (Ok (map_to_list c).*1, w'')).
Proof.
  intros [-> ->]%get_tools_result fs w''.
  pose proof (tools_set_after_update w) as Ht.
  split; [by apply (get_tools_memoized w'')|].
  intros Hnone.
  destruct (tables_set_after_update w) as [_ [c Hc]]; [by right|].
  exists c. split; [done|]. split.
  - intros a. by apply get_alias_conflicts_memoized.
  - by apply get_conflicting_aliases_memoized.
Qed.

Lemma resolution_is_memoized_witness :
  ∃ t w', get_tools maya_nuke_world = (Ok t, w') ∧
          get_tools (mkWorld (self w') ∅) = (Ok t, mkWorld (self w') ∅).
Proof.
  pose (r := get_tools maya_nuke_world).
  assert (Hr : r.1 = Ok (ok_or None r.1)) by (vm_compute; reflexivity).
  assert (E : get_tools maya_nuke_world = (Ok (ok_or None r.1), r.2)).
  { rewrite <- Hr. apply surjective_pairing. }
  exists (ok_or None r.1), r.2. split; [exact E|].
  exact (proj1 (resolution_is_memoized _ _ _ E ∅)).
Defined.

(** ** A pass that fails *)

Lemma context_error_frame w w' n :
  frame w w' → context_error w' n = context_error w n.
Proof.
  intros (_ & Hm & _). unfold context_error.
  pose proof (meta_lookup (self w') (self w) n Hm) as Hl.
  assert (Hlp : load_path (self w') = load_path (self w)).
  { unfold world_meta, meta in Hm. by injection Hm. }
  rewrite Hlp.
  destruct (contexts (self w') !! n), (contexts (self w) !! n); done.
Qed.

Lemma update_body_frame d w : frame w (update_body d w).2.
Proof.
  rewrite update_body_effect.
  destruct (ctx_of w (Data.name d)) as [c|] eqn:Hc; [|apply frame_refl].
  simpl. eapply frame_trans; [by apply frame_materialise|].
  apply (frame_claims _ (materialise (Data.name d) c w)).
Qed.

Lemma update_loop_Raise l w e w' :
  for_ l update_body w = (Raise e, w') →
  ∃ d, d ∈ l ∧ ctx_of w (Data.name d) = None ∧
       e = context_error w (Data.name d).
Proof.
  revert w. induction l as [|d l IH]; intros w; [done|].
  cbn [for_]. rewrite bind_unfold.
  pose proof (update_body_frame d w) as Hf. revert Hf.
  rewrite update_body_effect.
  destruct (ctx_of w (Data.name d)) as [c|] eqn:Hc.
  - cbn [snd]. intros Hf Hrun.
    destruct (IH _ Hrun) as (d' & Hd' & Hc' & ->).
    exists d'. split; [by right|].
    destruct Hf as (? & ? & Hctx). rewrite Hctx in Hc'. split; [done|].
    by apply context_error_frame.
  - intros _ [= <- <-]. exists d. split; [by left|done].
Qed.

(** X8: a resolution pass that cannot get one of its contexts raises the
    error of that context's access, but the tables it had begun stay in
    place: the next [get_tools] does not raise and does not try again, it
    returns the winners recorded before the failure. *)
Theorem failed_pass_is_not_retried w e w' :
  tools (self w) = None → _update_tools w = (Raise e, w') →
  (∃ k d, contexts (self w) !! k = Some d ∧
          ctx_of w (Data.name d) = None ∧
          e = context_error w (Data.name d)) ∧
  get_tools w = (Raise e, w') ∧
  ∃ t, tools (self w') = Some t ∧
       ∀ fs, get_tools (mkWorld (self w') fs)
             = (Ok (Some t), mkWorld (self w') fs).
Proof.
  intros Hnone Hrun. split; [|split].
  - rewrite update_tools_unfold in Hrun by done.
    apply update_loop_Raise in Hrun as (d & Hd & Hc & ->).
    apply elem_of_sorted_contexts in Hd as [k Hk]. cbn [self] in Hk.
    exists k, d. split; [done|]. split; [exact Hc|].
    by apply context_error_frame.
  - unfold get_tools. by rewrite bind_unfold, Hrun.
  - pose proof (tools_set_after_update w) as [t Ht]. rewrite Hrun in Ht.
    cbn [snd] in Ht. exists t. split; [exact Ht|]. intros fs.
    rewrite (get_tools_memoized (mkWorld (self w') fs));
      cbn [self]; by rewrite Ht.
Qed.

Lemma failed_pass_is_not_retried_witness :
  ∃ e w', _update_tools broken_world = (Raise e, w') ∧
          e = IOError ["suites"; "fx"; "contexts"; "maya.rxt"] ∧
          winner_of w' "maya" = Some (Entry.mk "maya" "maya" "nuke" "nuke-9") ∧
          conflicts_of w' "maya" = None.
Proof.
  pose (r := _update_tools broken_world).
  assert (Hr : r.1 = Raise (IOError ["suites"; "fx"; "contexts"; "maya.rxt"]))
    by (vm_compute; reflexivity).
  assert (E : _update_tools broken_world =
              (Raise (IOError ["suites"; "fx"; "contexts"; "maya.rxt"]), r.2)).
  { rewrite <- Hr. apply surjective_pairing. }
  destruct (failed_pass_is_not_retried broken_world _ _
              ltac:(vm_compute; reflexivity) E) as (_ & _ & t & Ht & Hget).
  eexists _, r.2. split; [exact E|]. split; [reflexivity|].
  assert (Hw : mkWorld (self r.2) (disk r.2) = r.2) by apply world_eta.
  pose proof (Hget (disk r.2)) as Hg. rewrite Hw in Hg.
  unfold winner_of, conflicts_of. rewrite Hg. cbn [fst].
  split.
  - change (t !! "maya") with (Some t ≫= (.!! "maya")). rewrite <- Ht.
    vm_compute. reflexivity.
  - vm_compute. reflexivity.
Defined.

(** ** The aliases in conflict *)

(** X9: after a successful resolution pass [get_conflicting_aliases]
    returns, each once, exactly the aliases that at least two candidates
    of the pass expose. *)
Theorem conflicting_aliases_are_the_shared_ones w w' :
  tools (self w) = None → _update_tools w = (Ok tt, w') →
  ∃ es l, candidates w = Some es ∧
          get_conflicting_aliases w' = (Ok l, w') ∧ NoDup l ∧
          ∀ a, a ∈ l ↔ 2 ≤ length (with_alias a es).
Proof.
  intros Hnone Hrun.
  destruct (update_tools_Ok w w' Hnone Hrun)
    as (es & t & c & Hes & _ & Ht & Hc & Htab).
  exists es, (map_to_list c).*1. split; [done|].
  split; [apply get_conflicting_aliases_memoized; [by rewrite Ht|done]|].
  split; [apply NoDup_fst_map_to_list|].
  intros a. rewrite list_elem_of_fmap. destruct (Htab a) as [_ Htl]. split.
  - intros ([a' l] & -> & Hl%elem_of_map_to_list). simpl in *.
    rewrite Hl in Htl.
    destruct (with_alias a' es) as [|x [|y rest]]; simplify_eq/=. lia.
  - intros Hlen. destruct (with_alias a es) as [|x [|y rest]] eqn:E;
      simpl in Hlen; [lia|lia|].
    exists (a, y :: rest). split; [done|]. by apply elem_of_map_to_list.
Qed.

Lemma conflicting_aliases_are_the_shared_ones_witness :
  ∃ es l, candidates maya_nuke_world = Some es ∧
          get_conflicting_aliases resolved_world = (Ok l, resolved_world) ∧
          ((∀ a, a ∈ l ↔ 2 ≤ length (with_alias a es)) ∧ l = ["maya"]).
Proof.
  destruct (conflicting_aliases_are_the_shared_ones maya_nuke_world
              resolved_world) as (es & l & Hes & Hget & _ & Hiff).
  - vm_compute. reflexivity.
  - unfold resolved_world.
    refine (run_pair _update_tools maya_nuke_world tt _).
    vm_compute. reflexivity.
  - exists es, l. split; [exact Hes|]. split; [exact Hget|].
    split; [exact Hiff|].
    assert (Hl : (get_conflicting_aliases resolved_world).1 = Ok ["maya"])
      by (vm_compute; reflexivity).
    rewrite Hget in Hl. by injection Hl.
Defined.

(** * Further properties of persistence *)

(** ** Paths *)











(** ** The steps of [save] *)




Lemma same_suite_refl w : same_suite w w.
Proof. done. Qed.







(** ** Candidates only depend on what [to_dict] keeps and on the contexts *)












(** ** What a successful [save] leaves *)



(** ** [to_dict] and [from_dict] *)

Lemma py_max_nonempty l : l ≠ [] → ∃ m, py_max l = Ok m.
Proof. destruct l; [done|]. by eexists. Qed.

Lemma priorities_nonempty (cs : gmap string Data.t) :
  cs ≠ ∅ → Data.priority <$> (map_to_list cs).*2 ≠ [].
Proof.
  intros Hne Hnil. apply Hne. apply map_to_list_empty_iff.
  by destruct (map_to_list cs).
Qed.

(** X10: a suite rebuilt by [from_dict] from its own [to_dict] has the same
    entries without their context objects, no load path and no tables, and
    its clock is one past the largest stored priority, which may be lower
    than the clock it had (never higher, for priorities below the clock);
    for a suite without contexts [from_dict] raises [ValueError]. *)
Theorem from_dict_of_to_dict s :
  (contexts s = ∅ → from_dict (to_dict s) = Raise ValueError) ∧
  (contexts s ≠ ∅ →
   ∃ s', from_dict (to_dict s) = Ok s' ∧
         contexts s' = Data.set_context None <$> contexts s ∧
         load_path s' = None ∧ tools s' = None ∧ tool_conflicts s' = None ∧
         clock_is_succ_max s' ∧
         (clock_ok s → (next_priority s' ≤ next_priority s)%Z)).
Proof.
  split.
  - intros Hs. unfold to_dict, from_dict. rewrite Hs, fmap_empty.
    by rewrite map_to_list_empty.
  - intros Hne.
    assert (Hne' : Data.set_context None <$> contexts s ≠ ∅).
    { intros H. apply Hne. by apply fmap_empty_inv in H. }
    destruct (py_max_nonempty _ (priorities_nonempty _ Hne')) as [m Hm].
    assert (Hfd : from_dict (to_dict s)
                  = Ok (mkSuite None (Data.set_context None <$> contexts s)
                          (m + 1) None None)).
    { unfold to_dict, from_dict. by rewrite Hm. }
    eexists. split; [exact Hfd|]. repeat (split; [done|]).
    split; [by apply (from_dict_clock _ _ Hfd)|].
    intros Hok. simpl.
    apply py_max_spec in Hm as [Hin _].
    apply elem_of_priorities in Hin as (k & d & Hk & <-).
    rewrite lookup_fmap in Hk.
    destruct (contexts s !! k) as [d0|] eqn:Hk0; [|done].
    injection Hk as <-. simpl. specialize (Hok k d0 Hk0). lia.
Qed.

Lemma from_dict_of_to_dict_witness :
  from_dict (to_dict (self emptied_world)) = Raise ValueError ∧
  ∃ s', from_dict (to_dict (self (run_ops [RemoveContext "nuke"]
                                    maya_nuke_world))) = Ok s' ∧
        next_priority s' = 2%Z ∧
        next_priority (self (run_ops [RemoveContext "nuke"] maya_nuke_world))
          = 3%Z.
Proof.
  split.
  - apply (from_dict_of_to_dict (self emptied_world)).
    vm_compute. reflexivity.
  - destruct (from_dict_of_to_dict
                (self (run_ops [RemoveContext "nuke"] maya_nuke_world)))
      as [_ H].
    destruct H as (s' & Hs' & _).
    + apply (bool_decide_unpack _). vm_compute. exact I.
    + exists s'. split; [exact Hs'|]. split; [|vm_compute; reflexivity].
      change s' with (ok_or Suite_init (Ok s')).
      rewrite <- Hs'. vm_compute. reflexivity.
Defined.

(** ** [load] *)



(** ** Saving and loading again *)





(** ** Saving a suite whose contexts are live *)






(** ** Saving a loaded suite over itself *)





(** * Further properties of the alias invoker *)

Section InvokerProperties.
Variable parse_known_args : list string → option (Opts.t * list string).
Variable execute_shell : ResolvedContext.t → ShellCall.t → Z.


(** X16: the command [Alias.run] hands to the shell.  A given inline
    command is executed as it is, whatever else was asked; without one, an
    interactive request executes no command and overrides the prompt with
    the context name followed by [>]; otherwise the tool name followed by
    the arguments the parser left over is executed.  The prompt is
    overridden in the interactive case only. *)
Theorem Alias_run_command (a : Alias.t) (p : Process) opts tool_args :
  parse_known_args (tail (sys_argv p)) = Some (opts, tool_args) →
  let p' := (Alias_run parse_known_args execute_shell a p).2 in
  (∀ c, Opts.command opts = Some c → c ≠ [] →
     (ShellCall.command ∘ snd) <$> last_call p' = Some (Some c) ∧
     config_prompt p' = config_prompt p) ∧
  (Opts.command opts = None ∨ Opts.command opts = Some [] →
     if Opts.interactive opts then
       (ShellCall.command ∘ snd) <$> last_call p' = Some None ∧
       config_prompt p' = Some (Alias.context_name a +:+ ">")
     else
       (ShellCall.command ∘ snd) <$> last_call p'
         = Some (Some (Alias.tool_name a :: tool_args)) ∧
       config_prompt p' = config_prompt p).
Proof.
  intros Hp p'. subst p'. unfold Alias_run, last_call. rewrite Hp. split.
  - intros c -> Hc. destruct c as [|c cs]; [done|]. simpl.
    by rewrite last_snoc.
  - intros [->| ->]; destruct (Opts.interactive opts); simpl;
      by rewrite last_snoc.
Qed.


End InvokerProperties.


Lemma Alias_run_command_witness :
  let a := Alias.mk "maya" maya_context "maya" ["other.ma"] in
  (ShellCall.command ∘ snd) <$>
    last_call (Alias_run dialect quiet_shell a maya_process).2
  = Some (Some ["maya"; "file.ma"]) ∧
  (ShellCall.command ∘ snd) <$>
    last_call (Alias_run dialect quiet_shell a
                 (mkProcess ["maya"; "++command"; "echo"; "hi"] false None [])).2
  = Some (Some ["echo"; "hi"]).
Proof.
  intros a. split.
  - destruct (Alias_run_command dialect quiet_shell a maya_process
                Opts.empty ["file.ma"]) as [_ H].
    + vm_compute. reflexivity.
    + apply H. by left.
  - destruct (Alias_run_command dialect quiet_shell a
                (mkProcess ["maya"; "++command"; "echo"; "hi"] false None [])
                (Opts.mk false (Some ["echo"; "hi"]) None false false) [])
      as [H _].
    + vm_compute. reflexivity.
    + apply (H ["echo"; "hi"]); [reflexivity|discriminate].
Defined.

